(** * Interface version adapter: a shallow embedding of [src/lib.ts]

    The library keeps one append-only ledger of field writes ("deltas") per
    instance and lets several views, each bound to one version of a schema,
    read and write that ledger.  A read translates every recorded delta to
    the version of the reading view, one migration at a time, and folds the
    translated deltas into a plain object.

    The embedding follows the TypeScript source, the first part of
    [lib.ts]; the untyped copy that follows it in the file differs in that
    its [set] trap does not check the key.

    Modelling choices.
    - [Schema] objects are compared with [===] (object identity), so they
      live in a heap and a version is the address of its node.  The class
      never mutates a node after construction.
    - The [while] loops that follow [prev] links take fuel; the public
      functions supply [walk_fuel h], which is shown to be enough on every
      heap built by the constructor (a node's [prev] is an older node).
    - A thrown JavaScript exception is a [Throw] result.  [console.assert]
      only writes to the console and never changes control flow, so failed
      assertions are mentioned in comments and otherwise not modelled.
    - The ledger is a mutable array shared by all views of one instance:
      it lives in a store and a [Handler] holds its address. *)

From stdpp Require Import base option list strings gmap.

(** ** Results of computations that may throw *)

Inductive exn : Type :=
| TypeError                 (* reading a property of [undefined] *)
| Error (message : string). (* [throw new Error(message)] *)

Inductive result (A : Type) : Type :=
| Return (a : A)
| Throw (e : exn)
| OutOfFuel.                  (* a loop used up its fuel *)

Arguments Return {A} a.
Arguments Throw {A} e.
Arguments OutOfFuel {A}.

#[global] Instance result_ret : MRet result := fun A a => Return a.
#[global] Instance result_bind : MBind result := fun A B f m =>
  match m with
  | Return a => f a
  | Throw e => Throw e
  | OutOfFuel => OutOfFuel
  end.

(** [for (const x of xs) { acc = body(acc, x) }] with a body that may throw. *)
Fixpoint for_of {A B : Type} (body : A → B → result A) (xs : list B) (acc : A)
  : result A :=
  match xs with
  | [] => Return acc
  | x :: xs => acc' ← body acc x; for_of body xs acc'
  end.

(** ** Schemas and migrations *)

Inductive SchemaMigration : Type :=
| op_addField (fieldName : string)
| op_renameField (oldName newName : string)
| op_removeField (fieldName : string).

(** A version is a reference to a [Schema] object. *)
Definition version_ref := nat.

(** The two fields of [class Schema]; [None] is [undefined], which is what
    [emptySchema] has in both. *)
Record Schema : Type := mkSchema {
  prev : option version_ref;
  migration : option SchemaMigration;
}.

Definition heap := list Schema.

(** [new Schema(prev, migration)]: the fresh object gets the next address. *)
Definition new_Schema (prev : option version_ref)
    (migration : option SchemaMigration) (h : heap) : version_ref * heap :=
  (List.length h, h ++ [mkSchema prev migration]).

(** [export const emptySchema = new Schema(undefined, undefined)], created
    when the module is loaded. *)
Definition emptySchema : version_ref := 0.
Definition initial_heap : heap := [mkSchema None None].

Definition addField (this : version_ref) (fieldName : string) :=
  new_Schema (Some this) (Some (op_addField fieldName)).

Definition renameField (this : version_ref) (oldName newName : string) :=
  new_Schema (Some this) (Some (op_renameField oldName newName)).

Definition removeField (this : version_ref) (fieldName : string) :=
  new_Schema (Some this) (Some (op_removeField fieldName)).

(** [version.prev] and [version.migration] for a version that is an object. *)
Definition field_prev (h : heap) (version : version_ref) : option version_ref :=
  h !! version ≫= prev.

Definition field_migration (h : heap) (version : version_ref)
  : option SchemaMigration :=
  h !! version ≫= migration.

(** Fuel for one walk along [prev] links. *)
Definition walk_fuel (h : heap) : nat := S (S (List.length h)).
Arguments walk_fuel : simpl never.

(** ** The version relationship resolver *)

Inductive direction : Type := upgrade | downgrade.

#[global] Instance direction_eq_dec : EqDecision direction.
Proof. solve_decision. Defined.

Definition VersionHistory := list (version_ref * direction).

(** [versionInheritsFrom]: the loop variable [version] becomes [undefined]
    ([None]) when the walk leaves the root. *)
Fixpoint versionInheritsFrom_loop (fuel : nat) (h : heap)
    (version : option version_ref) (ancestorVersion : version_ref)
  : result bool :=
  match fuel with
  | 0 => OutOfFuel
  | S fuel =>
    match version with
    | None => Return false
    | Some v =>
      if decide (v = ancestorVersion) then Return true
      else versionInheritsFrom_loop fuel h (field_prev h v) ancestorVersion
    end
  end.

Definition versionInheritsFrom (h : heap)
    (descendantVersion ancestorVersion : version_ref) : result bool :=
  versionInheritsFrom_loop (walk_fuel h) h (Some descendantVersion)
    ancestorVersion.

(** The first loop of [getVersionRelationship]:
    [while (version !== sourceVersion) { history.unshift(..); version = version.prev }].
    With [version] undefined the test succeeds, the assertion is logged, an
    entry is pushed and [version.prev] throws a TypeError. *)
Fixpoint upgrade_loop (fuel : nat) (h : heap) (version : option version_ref)
    (sourceVersion : version_ref) (history : VersionHistory)
  : result VersionHistory :=
  match fuel with
  | 0 => OutOfFuel
  | S fuel =>
    match version with
    | None => Throw TypeError
    | Some v =>
      if decide (v = sourceVersion) then Return history
      else upgrade_loop fuel h (field_prev h v) sourceVersion
             ((v, upgrade) :: history)
    end
  end.

(** The second loop: [history.push(..)] instead of [unshift]. *)
Fixpoint downgrade_loop (fuel : nat) (h : heap) (version : option version_ref)
    (targetVersion : version_ref) (history : VersionHistory)
  : result VersionHistory :=
  match fuel with
  | 0 => OutOfFuel
  | S fuel =>
    match version with
    | None => Throw TypeError
    | Some v =>
      if decide (v = targetVersion) then Return history
      else downgrade_loop fuel h (field_prev h v) targetVersion
             (history ++ [(v, downgrade)])
    end
  end.

(** In the [else] branch the source only logs
    [console.assert(versionInheritsFrom(sourceVersion, targetVersion))];
    the loop runs whatever the outcome. *)
Definition getVersionRelationship (h : heap)
    (sourceVersion targetVersion : version_ref) : result VersionHistory :=
  inherits ← versionInheritsFrom h targetVersion sourceVersion;
  if inherits : bool
  then upgrade_loop (walk_fuel h) h (Some targetVersion) sourceVersion []
  else downgrade_loop (walk_fuel h) h (Some sourceVersion) targetVersion [].

(** ** Deltas, the translator and the reducer *)

Section Deltas.

Context {value : Type}.

Inductive Delta : Type :=
| op_no_op (version : version_ref)
| op_set (version : version_ref) (prop : string) (val : value).

Definition Delta_version (delta : Delta) : version_ref :=
  match delta with
  | op_no_op version => version
  | op_set version _ _ => version
  end.

Definition Ledger := list Delta.

(** The body of [case 'removeField'], which is also where control arrives
    after [case 'addField'], whose block has no [break].  The [else]
    branch only asserts [delta.prop !== migration.fieldName]. *)
Definition case_removeField (direction : direction) (version : version_ref)
    (prop : string) (val : value) (fieldName : string) : Delta :=
  if decide (direction = upgrade ∧ prop = fieldName)
  then op_no_op version
  else op_set version prop val.

Definition upgradeOrDowngradeDelta (h : heap) (delta : Delta)
    (direction : direction) (version : version_ref) : result Delta :=
  match delta with
  | op_no_op _ => Return (op_no_op version)
  | op_set _ prop val =>
    match field_migration h version with
    | None => Throw TypeError (* [migration.op] with [migration] undefined *)
    | Some (op_addField fieldName) =>
      if decide (direction = downgrade ∧ prop = fieldName)
      then Return (op_no_op version)
      else Return (case_removeField direction version prop val fieldName)
    | Some (op_removeField fieldName) =>
      Return (case_removeField direction version prop val fieldName)
    | Some (op_renameField oldName newName) =>
      if decide (direction = upgrade ∧ prop = oldName)
      then Return (op_set version newName val)
      else if decide (direction = downgrade ∧ prop = newName)
      then Return (op_set version oldName val)
      else Return (op_set version prop val)
    end
  end.

(** The body of the loop in [translateDelta]; its
    [console.assert(delta.version === version)] is [step_version] below. *)
Definition step (h : heap) (delta : Delta)
    (entry : version_ref * direction) : result Delta :=
  let '(version, direction) := entry in
  upgradeOrDowngradeDelta h delta direction version.

Definition translateDelta (h : heap) (delta : Delta)
    (targetVersion : version_ref) : result Delta :=
  history ← getVersionRelationship h (Delta_version delta) targetVersion;
  for_of (step h) history delta.

(** The rendered state is a plain object with string keys. *)
Definition applyDelta (instance : gmap string value) (delta : Delta)
  : gmap string value :=
  match delta with
  | op_no_op _ => instance
  | op_set _ prop val => <[prop := val]> instance
  end.

(** [ledger.reduce(reducer, {})]. *)
Definition reducer (h : heap) (version : version_ref)
    (state : gmap string value) (delta : Delta) : result (gmap string value) :=
  delta' ← translateDelta h delta version;
  Return (applyDelta state delta').

Definition renderLedgerAsVersion (h : heap) (ledger : Ledger)
    (version : version_ref) : result (gmap string value) :=
  for_of (reducer h version) ledger ∅.

End Deltas.

Arguments Delta : clear implicits.
Arguments Ledger : clear implicits.

(** ** Views: the proxy handler over a shared ledger *)

(** Property keys that reach a proxy trap are strings or symbols. *)
Inductive symbol : Type :=
| ledgerSymbol             (* [const ledgerSymbol = Symbol('ledger')] *)
| other_symbol (id : nat).

Inductive PropertyKey : Type :=
| key_string (s : string)
| key_symbol (sym : symbol).

(** A reference to a ledger array in the store. *)
Definition ledger_ref := nat.

Record Handler : Type := mkHandler {
  ledger : ledger_ref;
  version : version_ref;
}.

(** [new Proxy({}, new Handler(ledger, version))]: the proxy target stays
    empty, so a view is its handler. *)
Definition viewLedger (ledger : ledger_ref) (version : version_ref) : Handler :=
  mkHandler ledger version.

Section Views.

Context {value : Type}.

(** The ledgers of all instances; a [ledger_ref] indexes this list. *)
Definition store := list (Ledger value).

(** What the [get] trap hands back: the ledger itself for [ledgerSymbol],
    otherwise [state[prop]], where [None] is a property the rendered state
    does not own. *)
Inductive GetResult : Type :=
| got_ledger (l : ledger_ref)
| got_value (v : option value).

Definition Handler_set (this : Handler) (prop : PropertyKey) (val : value)
    (st : store) : result bool * store :=
  match prop with
  | key_symbol _ =>
    (Throw (Error "Cannot set non-string property key"), st)
  | key_string p =>
    (Return true,
     alter (λ l, l ++ [op_set (version this) p val]) (ledger this) st)
  end.

Definition Handler_get (h : heap) (this : Handler) (prop : PropertyKey)
    (st : store) : result GetResult :=
  match prop with
  | key_symbol ledgerSymbol => Return (got_ledger (ledger this))
  | _ =>
    match st !! ledger this with
    | None => Throw TypeError
    | Some l =>
      state ← renderLedgerAsVersion h l (version this);
      Return (got_value
                match prop with
                | key_string p => state !! p
                | key_symbol _ => None
                end)
    end
  end.

(** [Object.assign(view, initialState)]: one [set] per own property of
    [initialState], in order; the first throw ends the loop. *)
Fixpoint Object_assign (view : Handler)
    (initialState : list (PropertyKey * value)) (st : store)
  : result unit * store :=
  match initialState with
  | [] => (Return (), st)
  | (prop, val) :: rest =>
    match Handler_set view prop val st with
    | (Return _, st') => Object_assign view rest st'
    | (Throw e, st') => (Throw e, st')
    | (OutOfFuel, st') => (OutOfFuel, st')
    end
  end.

(** [initialState] is [None] when the argument is falsy. *)
Definition newInstance (this : version_ref)
    (initialState : option (list (PropertyKey * value))) (st : store)
  : result Handler * store :=
  let ledger := List.length st in
  let st := st ++ [[]] in
  let view := viewLedger ledger this in
  match initialState with
  | None => (Return view, st)
  | Some props =>
    match Object_assign view props st with
    | (Return _, st') => (Return view, st')
    | (Throw e, st') => (Throw e, st')
    | (OutOfFuel, st') => (OutOfFuel, st')
    end
  end.

(** An initial state whose keys are all strings, as its list of own
    properties, and the deltas [Object.assign] records for it. *)
Definition string_props (props : list (string * value))
  : list (PropertyKey * value) :=
  (λ kv, (key_string kv.1, kv.2)) <$> props.

Definition set_deltas (version : version_ref) (props : list (string * value))
  : Ledger value :=
  (λ kv, op_set version kv.1 kv.2) <$> props.

(** [instance[ledgerSymbol]] on a view goes through its [get] trap. *)
Definition viewInstance (this : version_ref) (instance : Handler) : Handler :=
  viewLedger (ledger instance) this.

End Views.

Arguments store : clear implicits.
Arguments GetResult : clear implicits.

(** ** Lineages *)

(** The version reached from [v] after [n] [prev] links. *)
Fixpoint nth_prev (h : heap) (n : nat) (v : version_ref) : option version_ref :=
  match n with
  | 0 => Some v
  | S n => field_prev h v ≫= nth_prev h n
  end.

(** The first [n] versions met on the walk that starts at [v]. *)
Fixpoint segment (h : heap) (n : nat) (v : version_ref) : list version_ref :=
  match n with
  | 0 => []
  | S n => v :: from_option (segment h n) [] (field_prev h v)
  end.

(** [a] is [d] or one of its ancestors. *)
Definition inherits (h : heap) (d a : version_ref) : Prop :=
  ∃ n, nth_prev h n d = Some a.

(** Two versions on one ancestor path. *)
Definition related (h : heap) (a b : version_ref) : Prop :=
  inherits h a b ∨ inherits h b a.

(** A version lies strictly between two others on a lineage. *)
Definition strictly_between (h : heap) (lo hi v : version_ref) : Prop :=
  v ≠ lo ∧ v ≠ hi ∧ inherits h hi v ∧ inherits h v lo.

(** Heaps the constructor builds: every [prev] is an object allocated
    earlier, and a node that has a [prev] has a migration. *)
Definition node_ok (v : version_ref) (s : Schema) : bool :=
  match prev s with
  | None => true
  | Some p => bool_decide (p < v) && bool_decide (is_Some (migration s))
  end.

Fixpoint wf_from (i : nat) (h : heap) : bool :=
  match h with
  | [] => true
  | s :: h => node_ok i s && wf_from (S i) h
  end.

Definition wf_heap (h : heap) : Prop := wf_from 0 h = true.

(** Enough fuel for the walk that starts at [v]. *)
Definition enough_fuel (h : heap) (v : version_ref) (fuel : nat) : Prop :=
  v `min` List.length h + 2 ≤ fuel.

(** ** The worked scenarios *)

Module Scenario.

Open Scope string_scope.

(** [version1 = emptySchema.addField('fieldX').addField('fieldY')] and
    [version2 = version1.removeField('fieldY').renameField('fieldX','fieldY').addField('fieldX')]. *)
Definition h1 := addField emptySchema "fieldX" initial_heap.
Definition h2 := addField h1.1 "fieldY" h1.2.
Definition version1 : version_ref := h2.1.
Definition h3 := removeField version1 "fieldY" h2.2.
Definition h4 := renameField h3.1 "fieldX" "fieldY" h3.2.
Definition h5 := addField h4.1 "fieldX" h4.2.
Definition version2 : version_ref := h5.1.
Definition schemas : heap := h5.2.

(** [view1 = version1.newInstance({}); view2 = version2.viewInstance(view1)]. *)
Definition s0 : result Handler * store string :=
  newInstance version1 (Some []) [].
Definition view1 : Handler := viewLedger 0 version1.
Definition view2 : Handler := viewInstance version2 view1.

(** [view1.fieldX = "A"; view1.fieldY = "B"]. *)
Definition s1 := (Handler_set view1 (key_string "fieldX") "A" s0.2).2.
Definition s2 := (Handler_set view1 (key_string "fieldY") "B" s1).2.

(** [view2.fieldX = "C"; view2.fieldY = "D"]. *)
Definition s3 := (Handler_set view2 (key_string "fieldX") "C" s2).2.
Definition s4 := (Handler_set view2 (key_string "fieldY") "D" s3).2.

Definition read (view : Handler) (field : string) (st : store string) :=
  Handler_get schemas view (key_string field) st.

(** Two sibling versions of the root, and a delta recorded before a field
    of its name was added. *)
Definition branches : heap :=
  (addField emptySchema "b" (addField emptySchema "a" initial_heap).2).2.

Definition one_add : heap := (addField emptySchema "x" initial_heap).2.

End Scenario.

(** ** The field names a migration mentions *)

Definition migration_names (m : SchemaMigration) : list string :=
  match m with
  | op_addField fieldName => [fieldName]
  | op_renameField oldName newName => [oldName; newName]
  | op_removeField fieldName => [fieldName]
  end.

(** ** Path entries read in the other direction *)

Definition opposite (d : direction) : direction :=
  match d with
  | upgrade => downgrade
  | downgrade => upgrade
  end.

Definition flip_entry (e : version_ref * direction) : version_ref * direction :=
  (e.1, opposite e.2).

(** ** Facts about well-formed heaps and lineages *)

Lemma wf_from_lookup i h v s :
  wf_from i h = true → h !! v = Some s → node_ok (i + v) s = true.
Proof.
  revert i v. induction h as [|s' h IH]; intros i v Hwf Hl; [done|].
  simpl in Hwf. apply andb_true_iff in Hwf as [Hs Hh].
  destruct v as [|v]; simpl in Hl.
  - injection Hl as ->. by rewrite Nat.add_0_r.
  - replace (i + S v) with (S i + v) by lia. by apply IH.
Qed.

Lemma wf_heap_prev h v p :
  wf_heap h → field_prev h v = Some p →
  p < v ∧ v < List.length h ∧ is_Some (field_migration h v).
Proof.
  unfold wf_heap, field_prev, field_migration. intros Hwf Hp.
  destruct (h !! v) as [s|] eqn:Hs; [|done]. simpl in *.
  pose proof (wf_from_lookup 0 h v s Hwf Hs) as Hok.
  unfold node_ok in Hok. rewrite Hp in Hok.
  apply andb_true_iff in Hok as [H1 H2].
  apply bool_decide_eq_true in H1, H2.
  split; [done|]. split; [|done]. by eapply lookup_lt_Some.
Qed.

(** The module's initial heap is well formed and the three builder methods
    keep it so, whatever names they are given. *)
Lemma wf_from_snoc i h s :
  wf_from i (h ++ [s]) = wf_from i h && node_ok (i + List.length h) s.
Proof.
  revert i. induction h as [|s' h IH]; intros i; simpl.
  - by rewrite andb_true_r, Nat.add_0_r.
  - rewrite IH, andb_assoc. do 2 f_equal. lia.
Qed.

Lemma wf_heap_initial : wf_heap initial_heap.
Proof. reflexivity. Qed.

Lemma wf_heap_new_Schema h this m :
  wf_heap h → this < List.length h →
  wf_heap (new_Schema (Some this) (Some m) h).2.
Proof.
  unfold wf_heap, new_Schema. intros Hwf Hlt. simpl.
  rewrite wf_from_snoc, Hwf. unfold node_ok. simpl.
  apply andb_true_iff.
  split; first [done | apply bool_decide_eq_true; simpl; lia].
Qed.

Lemma wf_heap_builders h this :
  wf_heap h → this < List.length h →
  (∀ fieldName, wf_heap (addField this fieldName h).2) ∧
  (∀ oldName newName, wf_heap (renameField this oldName newName h).2) ∧
  (∀ fieldName, wf_heap (removeField this fieldName h).2).
Proof.
  intros Hwf Hlt. repeat split; intros; by apply wf_heap_new_Schema.
Qed.

Lemma enough_fuel_walk h v : enough_fuel h v (walk_fuel h).
Proof. unfold enough_fuel, walk_fuel. lia. Qed.

Lemma enough_fuel_step h v p fuel :
  wf_heap h → field_prev h v = Some p →
  enough_fuel h v (S fuel) → enough_fuel h p fuel.
Proof.
  intros Hwf Hp. destruct (wf_heap_prev h v p Hwf Hp) as (? & ? & _).
  unfold enough_fuel. lia.
Qed.

Lemma enough_fuel_pos h v fuel : enough_fuel h v fuel → ∃ f, fuel = S (S f).
Proof.
  unfold enough_fuel. intros H.
  destruct fuel as [|[|f]]; [lia|lia|by exists f].
Qed.

Lemma nth_prev_le h n d a :
  wf_heap h → nth_prev h n d = Some a → a + n ≤ d.
Proof.
  intros Hwf. revert d. induction n as [|n IH]; intros d H; simpl in H.
  - injection H as ->. lia.
  - destruct (field_prev h d) as [p|] eqn:Hp; [|done]. simpl in H.
    apply IH in H. destruct (wf_heap_prev h d p Hwf Hp) as (? & _). lia.
Qed.

Lemma nth_prev_S_r h n d a :
  nth_prev h (S n) d = Some a ↔
  ∃ c, nth_prev h n d = Some c ∧ field_prev h c = Some a.
Proof.
  revert d. induction n as [|n IH]; intros d.
  - simpl. destruct (field_prev h d) as [p|] eqn:Hp; simpl; split.
    + intros [= <-]. eauto.
    + intros (c & [= <-] & Hc). congruence.
    + done.
    + intros (c & [= <-] & Hc). congruence.
  - change (nth_prev h (S (S n)) d) with (field_prev h d ≫= nth_prev h (S n)).
    change (nth_prev h (S n) d) with (field_prev h d ≫= nth_prev h n).
    destruct (field_prev h d) as [p|]; simpl.
    + apply IH.
    + split; [done|]. by intros (c & ? & _).
Qed.

Lemma nth_prev_add h n m a b c :
  nth_prev h n a = Some b → nth_prev h m b = Some c →
  nth_prev h (n + m) a = Some c.
Proof.
  revert a. induction n as [|n IH]; intros a Hab Hbc; simpl in *.
  - by injection Hab as ->.
  - destruct (field_prev h a) as [p|]; [|done]. simpl in *. by apply IH.
Qed.

Lemma inherits_refl h v : inherits h v v.
Proof. by exists 0. Qed.

Lemma inherits_antisym h a b :
  wf_heap h → inherits h a b → inherits h b a → a = b.
Proof.
  intros Hwf [n Hn] [m Hm].
  apply nth_prev_le in Hn, Hm; try done. lia.
Qed.

Lemma segment_length h n d a :
  nth_prev h n d = Some a → List.length (segment h n d) = n.
Proof.
  revert d. induction n as [|n IH]; intros d H; [done|].
  simpl in *. destruct (field_prev h d) as [p|]; [|done]. simpl in *.
  f_equal. by apply IH.
Qed.

Lemma segment_lookup h n d a i :
  nth_prev h n d = Some a → i < n → segment h n d !! i = nth_prev h i d.
Proof.
  revert d i. induction n as [|n IH]; intros d i H Hi; [lia|].
  simpl in H. destruct i as [|i]; [done|].
  simpl. destruct (field_prev h d) as [p|]; [|done]. simpl in *.
  apply IH; [done|lia].
Qed.

Lemma segment_snoc h n d c :
  nth_prev h n d = Some c → segment h (S n) d = segment h n d ++ [c].
Proof.
  revert d. induction n as [|n IH]; intros d H.
  - simpl in H. injection H as ->. simpl. by destruct (field_prev h c).
  - change (nth_prev h (S n) d) with (field_prev h d ≫= nth_prev h n) in H.
    change (segment h (S (S n)) d)
      with (d :: from_option (segment h (S n)) [] (field_prev h d)).
    change (segment h (S n) d)
      with (d :: from_option (segment h n) [] (field_prev h d)).
    destruct (field_prev h d) as [p|]; [|done]. simpl in *.
    f_equal. by apply IH.
Qed.

Lemma segment_migration h n d a v :
  wf_heap h → nth_prev h n d = Some a → v ∈ segment h n d →
  is_Some (field_migration h v).
Proof.
  intros Hwf. revert d. induction n as [|n IH]; intros d H Hv.
  - by apply elem_of_nil in Hv.
  - simpl in *. destruct (field_prev h d) as [p|] eqn:Hp; [|done].
    simpl in *. apply elem_of_cons in Hv as [->|Hv].
    + by destruct (wf_heap_prev h d p Hwf Hp) as (_ & _ & ?).
    + by eapply IH.
Qed.

(** *** The three loops on a well-formed heap *)

Lemma versionInheritsFrom_loop_true h n d a fuel :
  nth_prev h n d = Some a → n < fuel →
  versionInheritsFrom_loop fuel h (Some d) a = Return true.
Proof.
  revert d fuel. induction n as [|n IH]; intros d fuel H Hf.
  - simpl in H. injection H as ->. destruct fuel; [lia|].
    simpl. by rewrite decide_True.
  - destruct fuel as [|fuel]; [lia|]. simpl in *.
    destruct (decide (d = a)); [done|].
    destruct (field_prev h d) as [p|]; [|done]. simpl in H.
    apply IH; [done|lia].
Qed.

Lemma versionInheritsFrom_loop_false h d a fuel :
  wf_heap h → ¬ inherits h d a → enough_fuel h d fuel →
  versionInheritsFrom_loop fuel h (Some d) a = Return false.
Proof.
  intros Hwf. revert d. induction fuel as [|fuel IH]; intros d Hn Hf.
  - apply enough_fuel_pos in Hf as [? ?]. done.
  - simpl. destruct (decide (d = a)) as [->|_].
    { destruct Hn. apply inherits_refl. }
    destruct (field_prev h d) as [p|] eqn:Hp.
    + apply IH; [|by eapply enough_fuel_step].
      intros [n Hn']. apply Hn. exists (S n). simpl. by rewrite Hp.
    + apply enough_fuel_pos in Hf as [f [= ->]]. done.
Qed.

Lemma versionInheritsFrom_true h d a :
  wf_heap h → inherits h d a → versionInheritsFrom h d a = Return true.
Proof.
  intros Hwf [n Hn]. eapply versionInheritsFrom_loop_true; [done|].
  pose proof (nth_prev_le h n d a Hwf Hn).
  destruct n as [|n]; [unfold walk_fuel; lia|].
  simpl in Hn. destruct (field_prev h d) as [p|] eqn:Hp; [|done].
  destruct (wf_heap_prev h d p Hwf Hp) as (_ & ? & _).
  unfold walk_fuel. lia.
Qed.

Lemma versionInheritsFrom_false h d a :
  wf_heap h → ¬ inherits h d a → versionInheritsFrom h d a = Return false.
Proof.
  intros Hwf Hn. apply versionInheritsFrom_loop_false; [done..|].
  apply enough_fuel_walk.
Qed.

Lemma inherits_dec h d a : wf_heap h → inherits h d a ∨ ¬ inherits h d a.
Proof.
  intros Hwf. unfold inherits.
  assert (∀ k, (∃ n, n < k ∧ nth_prev h n d = Some a) ∨
               ¬ (∃ n, n < k ∧ nth_prev h n d = Some a)) as Hk.
  { induction k as [|k [IH|IH]].
    - right. intros (n & ? & _). lia.
    - left. destruct IH as (n & ? & ?). exists n. split; [lia|done].
    - destruct (decide (nth_prev h k d = Some a)) as [E|E].
      + left. exists k. split; [lia|done].
      + right. intros (n & Hlt & Hn). apply IH.
        destruct (decide (n = k)) as [->|]; [done|].
        exists n. split; [lia|done]. }
  destruct (Hk (S d)) as [(n & _ & Hn)|Hno]; [left; eauto|].
  right. intros [n Hn]. apply Hno. exists n. split; [|done].
  apply nth_prev_le in Hn; [lia|done].
Qed.

Lemma upgrade_loop_spec h n target source fuel history :
  wf_heap h → nth_prev h n target = Some source →
  enough_fuel h target fuel →
  upgrade_loop fuel h (Some target) source history =
  Return (((., upgrade) <$> reverse (segment h n target)) ++ history).
Proof.
  intros Hwf. revert target fuel history.
  induction n as [|n IH]; intros target fuel history H Hf.
  - simpl in H. injection H as ->.
    apply enough_fuel_pos in Hf as [f ->]. simpl. by rewrite decide_True.
  - pose proof (nth_prev_le h _ _ _ Hwf H) as Hle.
    destruct fuel as [|f]; [by apply enough_fuel_pos in Hf as [? ?]|].
    simpl in H |- *. rewrite decide_False by lia.
    destruct (field_prev h target) as [p|] eqn:Hp; [|done]. simpl in *.
    rewrite (IH p f _ H) by (by eapply enough_fuel_step).
    f_equal. rewrite reverse_cons, fmap_app, <- app_assoc. done.
Qed.

Lemma downgrade_loop_spec h n source target fuel history :
  wf_heap h → nth_prev h n source = Some target →
  enough_fuel h source fuel →
  downgrade_loop fuel h (Some source) target history =
  Return (history ++ ((., downgrade) <$> segment h n source)).
Proof.
  intros Hwf. revert source fuel history.
  induction n as [|n IH]; intros source fuel history H Hf.
  - simpl in H. injection H as ->.
    apply enough_fuel_pos in Hf as [f ->]. simpl.
    by rewrite decide_True, app_nil_r.
  - pose proof (nth_prev_le h _ _ _ Hwf H) as Hle.
    destruct fuel as [|f]; [by apply enough_fuel_pos in Hf as [? ?]|].
    simpl in H |- *. rewrite decide_False by lia.
    destruct (field_prev h source) as [p|] eqn:Hp; [|done]. simpl in *.
    rewrite (IH p f _ H) by (by eapply enough_fuel_step).
    f_equal. by rewrite <- app_assoc.
Qed.

Lemma downgrade_loop_unrelated h source target fuel history :
  wf_heap h → ¬ inherits h source target → enough_fuel h source fuel →
  downgrade_loop fuel h (Some source) target history = Throw TypeError.
Proof.
  intros Hwf. revert source history.
  induction fuel as [|fuel IH]; intros source history Hn Hf.
  - apply enough_fuel_pos in Hf as [? ?]. done.
  - simpl. destruct (decide (source = target)) as [->|_].
    { destruct Hn. apply inherits_refl. }
    destruct (field_prev h source) as [p|] eqn:Hp.
    + apply IH; [|by eapply enough_fuel_step].
      intros [n Hn']. apply Hn. exists (S n). simpl. by rewrite Hp.
    + apply enough_fuel_pos in Hf as [f [= ->]]. done.
Qed.

(** *** The resolver on well-formed heaps *)

Lemma bind_Return {A B : Type} (a : A) (f : A → result B) :
  (Return a ≫= f) = f a.
Proof. reflexivity. Qed.

Lemma getVersionRelationship_upgrade h n source target :
  wf_heap h → nth_prev h n target = Some source →
  getVersionRelationship h source target =
  Return ((., upgrade) <$> reverse (segment h n target)).
Proof.
  intros Hwf Hn. unfold getVersionRelationship.
  rewrite versionInheritsFrom_true by (done || by exists n).
  rewrite bind_Return.
  rewrite (upgrade_loop_spec h n) by (done || apply enough_fuel_walk).
  by rewrite app_nil_r.
Qed.

Lemma getVersionRelationship_downgrade h n source target :
  wf_heap h → nth_prev h (S n) source = Some target →
  getVersionRelationship h source target =
  Return ((., downgrade) <$> segment h (S n) source).
Proof.
  intros Hwf Hn. unfold getVersionRelationship.
  rewrite versionInheritsFrom_false; [|done|].
  - rewrite bind_Return.
    by rewrite (downgrade_loop_spec h (S n))
      by (done || apply enough_fuel_walk).
  - intros [m Hm]. apply nth_prev_le in Hn, Hm; try done. lia.
Qed.

Lemma getVersionRelationship_unrelated h source target :
  wf_heap h → ¬ inherits h target source → ¬ inherits h source target →
  getVersionRelationship h source target = Throw TypeError.
Proof.
  intros Hwf H1 H2. unfold getVersionRelationship.
  rewrite versionInheritsFrom_false by done. rewrite bind_Return.
  apply downgrade_loop_unrelated; [done..|apply enough_fuel_walk].
Qed.

Lemma versionInheritsFrom_false_inv h d a :
  wf_heap h → versionInheritsFrom h d a = Return false → ¬ inherits h d a.
Proof.
  intros Hwf Hf Hi. rewrite versionInheritsFrom_true in Hf; done.
Qed.

Lemma segment_one h c t : field_prev h c = Some t → segment h 1 c = [c].
Proof. intros H. simpl. by rewrite H. Qed.

(** ** Facts about the translator and the reducer *)

Section Translator.

Context {value : Type}.
Implicit Types (delta d : Delta value) (l : Ledger value).

Lemma translateDelta_unfold h d target :
  translateDelta h d target =
  (getVersionRelationship h (Delta_version d) target ≫=
   λ history, for_of (step h) history d).
Proof. reflexivity. Qed.

Lemma for_of_cons {A B : Type} (body : A → B → result A) x xs acc :
  for_of body (x :: xs) acc = (body acc x ≫= for_of body xs).
Proof. reflexivity. Qed.

Lemma for_of_app {A B : Type} (body : A → B → result A) xs ys acc :
  for_of body (xs ++ ys) acc = (for_of body xs acc ≫= for_of body ys).
Proof.
  revert acc. induction xs as [|x xs IH]; intros acc; [done|].
  simpl. destruct (body acc x); simpl; [apply IH|done..].
Qed.

Lemma last_default_cons {A : Type} (a x : A) (xs : list A) :
  default a (last (x :: xs)) = default x (last xs).
Proof.
  revert a x. induction xs as [|y xs IH]; intros a x; [done|].
  by rewrite last_cons_cons, (IH a y), (IH x y).
Qed.

Lemma step_version h d dir v d' :
  upgradeOrDowngradeDelta h d dir v = Return d' → Delta_version d' = v.
Proof.
  unfold upgradeOrDowngradeDelta, case_removeField.
  destruct d as [v0|v0 prop val]; [by intros [= <-]|].
  destruct (field_migration h v) as [[f|o n|f]|]; [| | |done];
    repeat case_decide; by intros [= <-].
Qed.

Lemma step_total h d dir v :
  is_Some (field_migration h v) →
  ∃ d', upgradeOrDowngradeDelta h d dir v = Return d'.
Proof.
  intros [m Hm]. unfold upgradeOrDowngradeDelta.
  destruct d as [v0|v0 prop val]; [eauto|].
  rewrite Hm. destruct m; repeat case_decide; eauto.
Qed.

Lemma step_no_op h v0 dir v :
  upgradeOrDowngradeDelta h (op_no_op v0 : Delta value) dir v =
  Return (op_no_op v).
Proof. reflexivity. Qed.

Lemma step_value h v0 prop (val : value) dir v v' prop' val' :
  upgradeOrDowngradeDelta h (op_set v0 prop val) dir v =
  Return (op_set v' prop' val') → val' = val.
Proof.
  unfold upgradeOrDowngradeDelta, case_removeField.
  destruct (field_migration h v) as [[f|o n|f]|]; [| | |done];
    repeat case_decide; intros [= ]; by subst.
Qed.

Lemma step_downgrade_idem h d v d' :
  upgradeOrDowngradeDelta h d downgrade v = Return d' →
  upgradeOrDowngradeDelta h d' downgrade v = Return d'.
Proof.
  unfold upgradeOrDowngradeDelta, case_removeField.
  destruct d as [v0|v0 prop val]; [by intros [= <-]|].
  destruct (field_migration h v) as [[f|o n|f]|] eqn:Hm; [| | |done];
    repeat case_decide; intros [= <-]; try done; rewrite ?Hm;
    repeat case_decide; try done; exfalso; intuition congruence.
Qed.

Lemma for_of_steps_total h path d :
  Forall (λ e, is_Some (field_migration h e.1)) path →
  ∃ d', for_of (step h) path d = Return d' ∧
        Delta_version d' = default (Delta_version d) (last path.*1).
Proof.
  revert d. induction path as [|[v dir] path IH]; intros d Hall.
  - exists d. done.
  - apply Forall_cons in Hall as [Hv Hall].
    destruct (step_total h d dir v Hv) as [d1 Hd1].
    destruct (IH d1 Hall) as (d' & Hd' & Hver).
    exists d'. simpl. rewrite Hd1. simpl. split; [done|].
    rewrite Hver, last_default_cons. f_equal. by eapply step_version.
Qed.

Lemma for_of_steps_no_op h path v0 :
  for_of (step h) path (op_no_op v0 : Delta value) =
  Return (op_no_op (default v0 (last path.*1))).
Proof.
  revert v0. induction path as [|[v dir] path IH]; intros v0; [done|].
  simpl. by rewrite IH, last_default_cons.
Qed.

Lemma segment_all_migrations h n (v a : version_ref) (dir : direction) :
  wf_heap h → nth_prev h n v = Some a →
  Forall (λ e : version_ref * direction, is_Some (field_migration h e.1))
         ((., dir) <$> segment h n v).
Proof.
  intros Hwf Hn. apply Forall_fmap, Forall_forall. intros w Hw. simpl.
  by eapply segment_migration.
Qed.

(** Translating towards a descendant (or the version itself) succeeds and
    ends on the target. *)
Lemma translateDelta_upgrade h d target :
  wf_heap h → inherits h target (Delta_version d) →
  ∃ d', translateDelta h d target = Return d' ∧ Delta_version d' = target.
Proof.
  intros Hwf [n Hn]. rewrite translateDelta_unfold.
  rewrite (getVersionRelationship_upgrade h n) by done.
  rewrite bind_Return.
  destruct (for_of_steps_total h
              ((., upgrade) <$> reverse (segment h n target)) d)
    as (d' & Hd' & Hver).
  { apply Forall_forall. intros e He.
    apply list_elem_of_fmap in He as (w & -> & Hw).
    rewrite elem_of_reverse in Hw. simpl. by eapply segment_migration. }
  exists d'. split; [done|]. rewrite Hver.
  destruct n as [|n].
  - simpl in *. by injection Hn as ->.
  - simpl in Hn |- *.
    destruct (field_prev h target) as [p|]; [|done]. simpl.
    rewrite reverse_cons, !fmap_app. simpl. by rewrite last_snoc.
Qed.

(** Translating towards a proper ancestor succeeds and ends on the child
    of the target that lies on the path. *)
Lemma translateDelta_downgrade h d target n :
  wf_heap h → nth_prev h (S n) (Delta_version d) = Some target →
  ∃ d0 c, nth_prev h n (Delta_version d) = Some c ∧
          field_prev h c = Some target ∧
          for_of (step h) ((., downgrade) <$> segment h n (Delta_version d)) d
            = Return d0 ∧
          translateDelta h d target
            = upgradeOrDowngradeDelta h d0 downgrade c.
Proof.
  intros Hwf Hn. rewrite translateDelta_unfold.
  rewrite (getVersionRelationship_downgrade h n) by done.
  rewrite bind_Return.
  destruct (proj1 (nth_prev_S_r h n _ _) Hn) as (c & Hc & Hct).
  rewrite (segment_snoc h n _ c Hc), fmap_app, for_of_app.
  destruct (for_of_steps_total h
              ((., downgrade) <$> segment h n (Delta_version d)) d)
    as (d0 & Hd0 & _).
  { by eapply segment_all_migrations. }
  exists d0, c. rewrite Hd0, bind_Return. simpl.
  repeat split; try done.
  by destruct (upgradeOrDowngradeDelta h d0 downgrade c).
Qed.

Lemma translateDelta_total h d target :
  wf_heap h → related h (Delta_version d) target →
  ∃ d', translateDelta h d target = Return d'.
Proof.
  intros Hwf [[n Hn]|Hup].
  - destruct n as [|n].
    + simpl in Hn. injection Hn as <-.
      destruct (translateDelta_upgrade h d (Delta_version d) Hwf) as (d' & ? & _);
        [apply inherits_refl|eauto].
    + destruct (translateDelta_downgrade h d target n Hwf Hn)
        as (d0 & c & _ & Hc & _ & ->).
      apply step_total.
      by destruct (wf_heap_prev h c target Hwf Hc) as (_ & _ & ?).
  - destruct (translateDelta_upgrade h d target Hwf Hup) as (d' & ? & _).
    eauto.
Qed.

Lemma translateDelta_same h d :
  wf_heap h → translateDelta h d (Delta_version d) = Return d.
Proof.
  intros Hwf. rewrite translateDelta_unfold.
  by rewrite (getVersionRelationship_upgrade h 0) by done.
Qed.

Lemma renderLedgerAsVersion_total h l v :
  wf_heap h → (∀ d, d ∈ l → related h (Delta_version d) v) →
  ∃ state, renderLedgerAsVersion h l v = Return state.
Proof.
  intros Hwf. unfold renderLedgerAsVersion. generalize (∅ : gmap string value).
  induction l as [|d l IH]; intros state Hall; [by exists state|].
  destruct (translateDelta_total h d v Hwf) as [d' Hd'].
  { apply Hall. by left. }
  rewrite for_of_cons.
  replace (reducer h v state d) with (Return (applyDelta state d'))
    by (unfold reducer; by rewrite Hd').
  rewrite bind_Return.
  apply IH. intros d0 Hd0. apply Hall. by right.
Qed.

Lemma renderLedgerAsVersion_snoc h l d v :
  renderLedgerAsVersion h (l ++ [d]) v =
  (renderLedgerAsVersion h l v ≫= λ state, reducer h v state d).
Proof.
  unfold renderLedgerAsVersion. rewrite for_of_app.
  destruct (for_of (reducer h v) l ∅); [|done..].
  simpl. by destruct (reducer h v a d).
Qed.

End Translator.

Lemma nth_prev_is_Some h n i d a :
  nth_prev h n d = Some a → i ≤ n → is_Some (nth_prev h i d).
Proof.
  revert d n. induction i as [|i IH]; intros d n H Hi; [by eexists|].
  destruct n as [|n]; [lia|]. simpl in *.
  destruct (field_prev h d) as [p|]; [|done]. simpl in *.
  eapply IH; [done|lia].
Qed.

(** ** The step table of [upgradeOrDowngradeDelta] *)

Section StepTable.

Context {value : Type}.
Implicit Types (val : value).

(** Through an [addField] version a [set] delta keeps its field in the
    downgrade direction unless the field is the added one, and in the
    upgrade direction when the field is not the added one. *)
Lemma addField_step_table h version fieldName v0 prop val :
  field_migration h version = Some (op_addField fieldName) →
  (prop = fieldName →
   upgradeOrDowngradeDelta h (op_set v0 prop val) downgrade version =
   Return (op_no_op version)) ∧
  (prop ≠ fieldName → ∀ dir,
   upgradeOrDowngradeDelta h (op_set v0 prop val) dir version =
   Return (op_set version prop val)).
Proof.
  intros Hm. unfold upgradeOrDowngradeDelta, case_removeField. rewrite Hm.
  split.
  - intros ->. by rewrite decide_True.
  - intros Hne dir. rewrite !decide_False; [done|..]; by intros [_ ?].
Qed.

(** With the field equal to the added one, the upgrade direction reaches the
    [removeField] test after the missing [break] and collapses the delta. *)
Lemma addField_upgrade_same_name h version fieldName v0 val :
  field_migration h version = Some (op_addField fieldName) →
  upgradeOrDowngradeDelta h (op_set v0 fieldName val) upgrade version =
  Return (op_no_op version).
Proof.
  intros Hm. unfold upgradeOrDowngradeDelta, case_removeField. rewrite Hm.
  rewrite decide_False by (by intros [? _]). by rewrite decide_True.
Qed.

Lemma removeField_step_table h version fieldName v0 prop val dir :
  field_migration h version = Some (op_removeField fieldName) →
  upgradeOrDowngradeDelta h (op_set v0 prop val) dir version =
  Return (if decide (dir = upgrade ∧ prop = fieldName)
          then op_no_op version else op_set version prop val).
Proof.
  intros Hm. unfold upgradeOrDowngradeDelta, case_removeField. by rewrite Hm.
Qed.

Lemma renameField_step_table h version oldName newName v0 prop val :
  field_migration h version = Some (op_renameField oldName newName) →
  upgradeOrDowngradeDelta h (op_set v0 prop val) upgrade version =
    Return (op_set version (if decide (prop = oldName) then newName else prop)
                   val) ∧
  upgradeOrDowngradeDelta h (op_set v0 prop val) downgrade version =
    Return (op_set version (if decide (prop = newName) then oldName else prop)
                   val).
Proof.
  intros Hm. unfold upgradeOrDowngradeDelta. rewrite Hm.
  split; repeat case_decide; try done; exfalso; intuition congruence.
Qed.

End StepTable.

(** ** The properties of the specification *)

Section Claims.

Context {value : Type}.
Implicit Types (d delta : Delta value) (l : Ledger value) (st : store value).

(** C3. Round trip: with every recorded delta on the lineage of the view's
    version, a write of [x] to the string field [f] through a view succeeds,
    and the read of [f] through the same view that follows returns [x]. *)
Theorem write_then_read h (this : Handler) st l (f : string) (x : value) :
  wf_heap h →
  st !! ledger this = Some l →
  (∀ d, d ∈ l → related h (Delta_version d) (version this)) →
  ∃ st', Handler_set this (key_string f) x st = (Return true, st') ∧
         st' !! ledger this = Some (l ++ [op_set (version this) f x]) ∧
         Handler_get h this (key_string f) st' = Return (got_value (Some x)).
Proof.
  intros Hwf Hl Hrel. eexists. split; [reflexivity|].
  unfold store, Ledger, ledger_ref in *.
  assert (alter (λ l, l ++ [op_set (version this) f x]) (ledger this) st
            !! ledger this = Some (l ++ [op_set (version this) f x])) as Hl'.
  { by rewrite list_lookup_alter_eq, Hl. }
  split; [done|]. unfold Handler_get.
  unfold store, Ledger, ledger_ref in *. rewrite Hl'.
  rewrite renderLedgerAsVersion_snoc.
  destruct (renderLedgerAsVersion_total h l (version this) Hwf Hrel)
    as [state ->].
  rewrite bind_Return. unfold reducer.
  pose proof (translateDelta_same h (op_set (version this) f x) Hwf) as Hs.
  simpl in Hs. rewrite Hs, !bind_Return. simpl.
  by rewrite lookup_insert_eq.
Qed.

(** C4. Two versions of a well-formed heap neither of which is an ancestor
    of the other have no path: the resolver throws (the TypeError raised by
    reading [prev] of [undefined]) and returns nothing. *)
Theorem unrelated_versions_throw h source target :
  wf_heap h →
  ¬ inherits h target source → ¬ inherits h source target →
  getVersionRelationship h source target = Throw TypeError ∧
  ∀ path, getVersionRelationship h source target ≠ Return path.
Proof.
  intros Hwf H1 H2.
  rewrite getVersionRelationship_unrelated by done. by split.
Qed.

(** C5 (amended). With [n] the chain distance between two related versions:
    when the source is [n] links below the target, the path has the [n]
    versions after the source up to and including the target, oldest first,
    each tagged [upgrade]; when the target is [n > 0] links below the source,
    the path has the [n] versions from the source itself down to the child
    of the target, newest first, each tagged [downgrade]. *)
Theorem resolver_path h source target n :
  wf_heap h →
  (nth_prev h n target = Some source →
   ∃ path, getVersionRelationship h source target = Return path ∧
     List.length path = n ∧
     ∀ i, i < n → ∃ v, nth_prev h (n - 1 - i) target = Some v ∧
                       path !! i = Some (v, upgrade)) ∧
  (0 < n → nth_prev h n source = Some target →
   ∃ path, getVersionRelationship h source target = Return path ∧
     List.length path = n ∧
     ∀ i, i < n → ∃ v, nth_prev h i source = Some v ∧
                       path !! i = Some (v, downgrade)).
Proof.
  intros Hwf. split.
  - intros Hn. eexists. split; [by apply getVersionRelationship_upgrade|].
    pose proof (segment_length h n target source Hn) as Hlen.
    split; [by rewrite length_fmap, length_reverse|].
    intros i Hi.
    destruct (nth_prev_is_Some h n (n - 1 - i) target source Hn) as [v Hv];
      [lia|].
    exists v. split; [done|]. unfold VersionHistory.
    rewrite list_lookup_fmap, reverse_lookup by lia.
    rewrite Hlen. replace (n - S i) with (n - 1 - i) by lia.
    rewrite (segment_lookup h n target source) by (done || lia).
    by rewrite Hv.
  - intros Hpos Hn. destruct n as [|n]; [lia|].
    eexists. split; [by apply getVersionRelationship_downgrade|].
    pose proof (segment_length h (S n) source target Hn) as Hlen.
    split; [by rewrite length_fmap|].
    intros i Hi.
    destruct (nth_prev_is_Some h (S n) i source target Hn) as [v Hv]; [lia|].
    exists v. split; [done|]. unfold VersionHistory.
    rewrite list_lookup_fmap.
    rewrite (segment_lookup h (S n) source target) by (done || lia).
    by rewrite Hv.
Qed.

(** C6 (amended). Every step leaves the delta tagged with the step's
    version.  A translation towards the delta's own version or one of its
    descendants ends tagged with the target; a translation towards a proper
    ancestor ends tagged with the last version stepped through, which is
    the child of the target on the path and not the target. *)
Theorem translation_version_tag h :
  wf_heap h →
  (∀ d dir v d',
     upgradeOrDowngradeDelta h d dir v = Return d' → Delta_version d' = v) ∧
  (∀ d target, inherits h target (Delta_version d) →
     ∃ d', translateDelta h d target = Return d' ∧
           Delta_version d' = target) ∧
  (∀ d target n, nth_prev h (S n) (Delta_version d) = Some target →
     ∃ d' c, translateDelta h d target = Return d' ∧
             nth_prev h n (Delta_version d) = Some c ∧
             field_prev h c = Some target ∧
             Delta_version d' = c ∧ c ≠ target).
Proof.
  intros Hwf. split; [|split].
  - intros d dir v d'. apply step_version.
  - intros d target. by apply translateDelta_upgrade.
  - intros d target n Hn.
    destruct (translateDelta_downgrade h d target n Hwf Hn)
      as (d0 & c & Hc & Hct & _ & Heq).
    destruct (wf_heap_prev h c target Hwf Hct) as (Hlt & _ & Hm).
    destruct (step_total h d0 downgrade c Hm) as [d' Hd'].
    exists d', c. rewrite Heq. repeat split; try done.
    + by eapply step_version.
    + lia.
Qed.

(** C7. Translating an already translated delta towards the same target
    returns it unchanged. *)
Theorem translateDelta_idempotent h d target d' :
  wf_heap h →
  translateDelta h d target = Return d' →
  translateDelta h d' target = Return d'.
Proof.
  intros Hwf H.
  destruct (inherits_dec h target (Delta_version d) Hwf) as [Hup|Hnup].
  { destruct (translateDelta_upgrade h d target Hwf Hup) as (d1 & H1 & Hv).
    rewrite H in H1. injection H1 as <-.
    pose proof (translateDelta_same h d' Hwf) as Hs. by rewrite Hv in Hs. }
  destruct (inherits_dec h (Delta_version d) target Hwf) as [[n Hn]|Hndown].
  - destruct n as [|n].
    { simpl in Hn. injection Hn as <-. destruct Hnup. apply inherits_refl. }
    destruct (translateDelta_downgrade h d target n Hwf Hn)
      as (d0 & c & _ & Hct & _ & Heq).
    rewrite Heq in H. pose proof (step_version _ _ _ _ _ H) as Hv.
    destruct (translateDelta_downgrade h d' target 0 Hwf)
      as (d0' & c' & Hc' & _ & Hd0' & ->).
    { simpl. by rewrite Hv, Hct. }
    simpl in Hc', Hd0'. injection Hc' as <-. injection Hd0' as <-.
    rewrite Hv. by eapply step_downgrade_idem.
  - rewrite translateDelta_unfold in H.
    by rewrite getVersionRelationship_unrelated in H.
Qed.

(** C8. A [no-op] delta leaves the folded state as it is, every step turns
    it into the [no-op] tagged with the step's version, and so it stays a
    [no-op] along any path. *)
Theorem no_op_is_inert :
  (∀ (state : gmap string value) v, applyDelta state (op_no_op v) = state) ∧
  (∀ h v dir version,
     upgradeOrDowngradeDelta h (op_no_op v : Delta value) dir version =
     Return (op_no_op version)) ∧
  (∀ h (path : VersionHistory) v,
     ∃ v', for_of (step h) path (op_no_op v : Delta value) =
           Return (op_no_op v')).
Proof.
  split; [done|]. split; [done|].
  intros h path v. eexists. apply for_of_steps_no_op.
Qed.

(** C9. [set] with a key that is not a string throws the dedicated error
    and leaves every ledger as it was. *)
Theorem set_non_string_key_throws (this : Handler) sym (x : value) st :
  Handler_set this (key_symbol sym) x st =
  (Throw (Error "Cannot set non-string property key"), st).
Proof. reflexivity. Qed.

(** C10. A step that maps a [set] delta to a [set] delta keeps its value. *)
Theorem step_preserves_value h v prop (x : value) dir version v' prop' x' :
  upgradeOrDowngradeDelta h (op_set v prop x) dir version =
  Return (op_set v' prop' x') →
  x' = x.
Proof. apply step_value. Qed.

End Claims.

(** ** The properties on the worked scenarios *)

Open Scope string_scope.

(** C1. A [set] delta for field [x], recorded under the empty schema and
    taken one step up through the version made by [addField('x')], does not
    keep its field: control falls from [case 'addField'] into
    [case 'removeField'] and the delta comes out as a [no-op]. *)
Theorem addField_upgrade_collapses_same_name :
  field_migration Scenario.one_add 1 = Some (op_addField "x") ∧
  upgradeOrDowngradeDelta Scenario.one_add (op_set emptySchema "x" "v")
    upgrade 1 = Return (op_no_op 1).
Proof. split; reflexivity. Qed.

(** C2. The order-sensitivity scenario: after the two writes through
    [view1], [view2] has no [fieldX] and reads [fieldY] as ["A"]; after the
    two further writes through [view2], [view1] reads [fieldX] as ["D"] and
    [fieldY] as ["B"], and [view2] reads ["C"] and ["D"]. *)
Theorem order_sensitivity_scenario :
  Scenario.s0 = (Return Scenario.view1, [[]]) ∧
  Scenario.read Scenario.view2 "fieldX" Scenario.s2 = Return (got_value None) ∧
  Scenario.read Scenario.view2 "fieldY" Scenario.s2
    = Return (got_value (Some "A")) ∧
  Scenario.read Scenario.view1 "fieldX" Scenario.s4
    = Return (got_value (Some "D")) ∧
  Scenario.read Scenario.view1 "fieldY" Scenario.s4
    = Return (got_value (Some "B")) ∧
  Scenario.read Scenario.view2 "fieldX" Scenario.s4
    = Return (got_value (Some "C")) ∧
  Scenario.read Scenario.view2 "fieldY" Scenario.s4
    = Return (got_value (Some "D")).
Proof. repeat split; vm_compute; reflexivity. Qed.

(** A view on one branch cannot read a ledger that holds a delta recorded
    on a sibling branch: the read throws. *)
Lemma read_across_branches_throws :
  Handler_get Scenario.branches (viewLedger 0 2) (key_string "b")
    [[op_set 1 "a" "1"; op_set 2 "b" "2"]] = Throw TypeError.
Proof. vm_compute. reflexivity. Qed.

Lemma write_then_read_witness :
  ∃ st', Handler_set Scenario.view2 (key_string "fieldX") "C" Scenario.s2
           = (Return true, st') ∧
         st' !! ledger Scenario.view2
           = Some [op_set 2 "fieldX" "A"; op_set 2 "fieldY" "B";
                   op_set 5 "fieldX" "C"] ∧
         Handler_get Scenario.schemas Scenario.view2 (key_string "fieldX") st'
           = Return (got_value (Some "C")).
Proof.
  apply (write_then_read Scenario.schemas Scenario.view2 Scenario.s2
           [op_set 2 "fieldX" "A"; op_set 2 "fieldY" "B"] "fieldX" "C").
  - reflexivity.
  - reflexivity.
  - intros d Hd. right. exists 3.
    apply elem_of_cons in Hd as [->|Hd]; [reflexivity|].
    apply elem_of_cons in Hd as [->|Hd]; [reflexivity|].
    by apply elem_of_nil in Hd.
Defined.

Lemma unrelated_versions_throw_witness :
  wf_heap Scenario.branches ∧
  getVersionRelationship Scenario.branches 1 2 = Throw TypeError ∧
  ∀ path, getVersionRelationship Scenario.branches 1 2 ≠ Return path.
Proof.
  split; [reflexivity|].
  apply (unrelated_versions_throw Scenario.branches 1 2).
  - reflexivity.
  - apply versionInheritsFrom_false_inv; reflexivity.
  - apply versionInheritsFrom_false_inv; reflexivity.
Defined.

(** C5, as stated, fails: one link apart, the upgrade path holds the target
    and the downgrade path holds the source, and neither version lies
    strictly between the two. *)
Lemma resolver_path_holds_an_endpoint :
  getVersionRelationship Scenario.one_add emptySchema 1
    = Return [(1, upgrade)] ∧
  getVersionRelationship Scenario.one_add 1 emptySchema
    = Return [(1, downgrade)] ∧
  ¬ strictly_between Scenario.one_add emptySchema 1 1.
Proof.
  split; [reflexivity|]. split; [reflexivity|].
  intros (_ & Hne & _). by apply Hne.
Qed.

Lemma resolver_path_witness :
  (∃ path, getVersionRelationship Scenario.schemas 2 5 = Return path ∧
     List.length path = 3 ∧
     ∀ i, i < 3 → ∃ v, nth_prev Scenario.schemas (3 - 1 - i) 5 = Some v ∧
                       path !! i = Some (v, upgrade)) ∧
  (∃ path, getVersionRelationship Scenario.schemas 5 2 = Return path ∧
     List.length path = 3 ∧
     ∀ i, i < 3 → ∃ v, nth_prev Scenario.schemas i 5 = Some v ∧
                       path !! i = Some (v, downgrade)).
Proof.
  split.
  - apply (resolver_path Scenario.schemas 2 5 3); reflexivity.
  - apply (resolver_path Scenario.schemas 5 2 3); [reflexivity|lia|reflexivity].
Defined.

(** C6, as stated, fails: a delta recorded under version 1 and translated
    to the empty schema comes back tagged with version 1. *)
Lemma downgrade_keeps_step_tag :
  translateDelta Scenario.one_add (op_set 1 "y" "v") emptySchema
    = Return (op_set 1 "y" "v") ∧
  Delta_version (op_set 1 "y" "v" : Delta string) ≠ emptySchema.
Proof. split; [reflexivity|done]. Qed.

Lemma translation_version_tag_witness :
  (∃ d', translateDelta Scenario.schemas (op_set 2 "fieldX" "A") 5 = Return d' ∧
         Delta_version d' = 5) ∧
  (∃ d' c, translateDelta Scenario.schemas (op_set 5 "fieldY" "D") 2
             = Return d' ∧
           nth_prev Scenario.schemas 2 5 = Some c ∧
           field_prev Scenario.schemas c = Some 2 ∧
           Delta_version d' = c ∧ c ≠ 2).
Proof.
  destruct (translation_version_tag (value := string) Scenario.schemas)
    as (_ & Hup & Hdown); [reflexivity|].
  split.
  - apply (Hup (op_set 2 "fieldX" "A") 5). by exists 3.
  - apply (Hdown (op_set 5 "fieldY" "D") 2 2). reflexivity.
Defined.

Lemma translateDelta_idempotent_witness :
  translateDelta Scenario.schemas (op_set 5 "fieldY" "D") 2
    = Return (op_set 3 "fieldX" "D") ∧
  translateDelta Scenario.schemas (op_set 3 "fieldX" "D") 2
    = Return (op_set 3 "fieldX" "D").
Proof.
  split; [reflexivity|].
  apply (translateDelta_idempotent Scenario.schemas (op_set 5 "fieldY" "D"));
    reflexivity.
Defined.

Lemma step_preserves_value_witness :
  upgradeOrDowngradeDelta Scenario.schemas (op_set 2 "fieldX" "A") upgrade 4
    = Return (op_set 4 "fieldY" "A") ∧
  "A" = "A".
Proof.
  split; [reflexivity|].
  apply (step_preserves_value Scenario.schemas 2 "fieldX" "A" upgrade 4
           4 "fieldY" "A").
  reflexivity.
Defined.

Close Scope string_scope.

(** ** Further facts: fuel and growing heaps *)

(** On a well-formed heap any two sufficient amounts of fuel give the same
    outcome of a walk. *)
Lemma versionInheritsFrom_loop_fuel h v a f1 f2 :
  wf_heap h → enough_fuel h v f1 → enough_fuel h v f2 →
  versionInheritsFrom_loop f1 h (Some v) a =
  versionInheritsFrom_loop f2 h (Some v) a.
Proof.
  intros Hwf. revert v f2. induction f1 as [|f1 IH]; intros v f2 H1 H2.
  { by apply enough_fuel_pos in H1 as [? ?]. }
  destruct f2 as [|f2]; [by apply enough_fuel_pos in H2 as [? ?]|].
  simpl. destruct (decide (v = a)); [done|].
  destruct (field_prev h v) as [p|] eqn:Hp.
  - apply IH; by eapply enough_fuel_step.
  - apply enough_fuel_pos in H1 as [g1 [= ->]].
    apply enough_fuel_pos in H2 as [g2 [= ->]]. done.
Qed.

Lemma upgrade_loop_fuel h v a f1 f2 history :
  wf_heap h → enough_fuel h v f1 → enough_fuel h v f2 →
  upgrade_loop f1 h (Some v) a history = upgrade_loop f2 h (Some v) a history.
Proof.
  intros Hwf. revert v f2 history.
  induction f1 as [|f1 IH]; intros v f2 history H1 H2.
  { by apply enough_fuel_pos in H1 as [? ?]. }
  destruct f2 as [|f2]; [by apply enough_fuel_pos in H2 as [? ?]|].
  simpl. destruct (decide (v = a)); [done|].
  destruct (field_prev h v) as [p|] eqn:Hp.
  - apply IH; by eapply enough_fuel_step.
  - apply enough_fuel_pos in H1 as [g1 [= ->]].
    apply enough_fuel_pos in H2 as [g2 [= ->]]. done.
Qed.

Lemma downgrade_loop_fuel h v a f1 f2 history :
  wf_heap h → enough_fuel h v f1 → enough_fuel h v f2 →
  downgrade_loop f1 h (Some v) a history =
  downgrade_loop f2 h (Some v) a history.
Proof.
  intros Hwf. revert v f2 history.
  induction f1 as [|f1 IH]; intros v f2 history H1 H2.
  { by apply enough_fuel_pos in H1 as [? ?]. }
  destruct f2 as [|f2]; [by apply enough_fuel_pos in H2 as [? ?]|].
  simpl. destruct (decide (v = a)); [done|].
  destruct (field_prev h v) as [p|] eqn:Hp.
  - apply IH; by eapply enough_fuel_step.
  - apply enough_fuel_pos in H1 as [g1 [= ->]].
    apply enough_fuel_pos in H2 as [g2 [= ->]]. done.
Qed.

(** Nodes appended to a heap are not seen from the versions it had. *)
Lemma field_prev_app h k v :
  v < List.length h → field_prev (h ++ k) v = field_prev h v.
Proof. intros Hv. unfold field_prev, heap in *. by rewrite lookup_app_l. Qed.

Lemma field_migration_app h k v :
  v < List.length h → field_migration (h ++ k) v = field_migration h v.
Proof.
  intros Hv. unfold field_migration, heap in *. by rewrite lookup_app_l.
Qed.

Lemma nth_prev_app h k n v :
  wf_heap h → v < List.length h → nth_prev (h ++ k) n v = nth_prev h n v.
Proof.
  intros Hwf. revert v. induction n as [|n IH]; intros v Hv; [done|].
  simpl. rewrite field_prev_app by done.
  destruct (field_prev h v) as [p|] eqn:Hp; [|done]. simpl.
  apply IH. destruct (wf_heap_prev h v p Hwf Hp) as (? & _). lia.
Qed.

Lemma inherits_app h k d a :
  wf_heap h → d < List.length h → inherits (h ++ k) d a ↔ inherits h d a.
Proof.
  intros Hwf Hd. unfold inherits.
  split; intros [n Hn]; exists n.
  - by rewrite nth_prev_app in Hn.
  - by rewrite nth_prev_app.
Qed.

Lemma versionInheritsFrom_loop_app h k fuel (v a : version_ref) :
  wf_heap h → v < List.length h →
  versionInheritsFrom_loop fuel (h ++ k) (Some v) a =
  versionInheritsFrom_loop fuel h (Some v) a.
Proof.
  intros Hwf. revert v. induction fuel as [|fuel IH]; intros v Hv; [done|].
  simpl. destruct (decide (v = a)); [done|].
  rewrite field_prev_app by done.
  destruct (field_prev h v) as [p|] eqn:Hp.
  - apply IH. destruct (wf_heap_prev h v p Hwf Hp) as (? & _). lia.
  - by destruct fuel.
Qed.

Lemma upgrade_loop_app h k fuel (v a : version_ref) history :
  wf_heap h → v < List.length h →
  upgrade_loop fuel (h ++ k) (Some v) a history =
  upgrade_loop fuel h (Some v) a history.
Proof.
  intros Hwf. revert v history.
  induction fuel as [|fuel IH]; intros v history Hv; [done|].
  simpl. destruct (decide (v = a)); [done|].
  rewrite field_prev_app by done.
  destruct (field_prev h v) as [p|] eqn:Hp.
  - apply IH. destruct (wf_heap_prev h v p Hwf Hp) as (? & _). lia.
  - by destruct fuel.
Qed.

Lemma downgrade_loop_app h k fuel (v a : version_ref) history :
  wf_heap h → v < List.length h →
  downgrade_loop fuel (h ++ k) (Some v) a history =
  downgrade_loop fuel h (Some v) a history.
Proof.
  intros Hwf. revert v history.
  induction fuel as [|fuel IH]; intros v history Hv; [done|].
  simpl. destruct (decide (v = a)); [done|].
  rewrite field_prev_app by done.
  destruct (field_prev h v) as [p|] eqn:Hp.
  - apply IH. destruct (wf_heap_prev h v p Hwf Hp) as (? & _). lia.
  - by destruct fuel.
Qed.

Lemma enough_fuel_bigger h k v :
  v < List.length h → enough_fuel h v (walk_fuel (h ++ k)).
Proof.
  intros Hv. unfold enough_fuel, walk_fuel. rewrite length_app. lia.
Qed.

Lemma getVersionRelationship_app h k source target :
  wf_heap h → source < List.length h → target < List.length h →
  getVersionRelationship (h ++ k) source target =
  getVersionRelationship h source target.
Proof.
  intros Hwf Hs Ht. unfold getVersionRelationship, versionInheritsFrom.
  rewrite versionInheritsFrom_loop_app by done.
  rewrite upgrade_loop_app, downgrade_loop_app by done.
  rewrite (versionInheritsFrom_loop_fuel h target source _ (walk_fuel h))
    by (done || by apply enough_fuel_bigger || apply enough_fuel_walk).
  rewrite (upgrade_loop_fuel h target source _ (walk_fuel h))
    by (done || by apply enough_fuel_bigger || apply enough_fuel_walk).
  rewrite (downgrade_loop_fuel h source target _ (walk_fuel h))
    by (done || by apply enough_fuel_bigger || apply enough_fuel_walk).
  done.
Qed.

Lemma segment_bound h n d v :
  wf_heap h → v ∈ segment h n d → v ≤ d.
Proof.
  intros Hwf. revert d. induction n as [|n IH]; intros d Hv.
  - by apply elem_of_nil in Hv.
  - simpl in Hv. apply elem_of_cons in Hv as [->|Hv]; [lia|].
    destruct (field_prev h d) as [p|] eqn:Hp; simpl in Hv.
    + apply IH in Hv. destruct (wf_heap_prev h d p Hwf Hp) as (? & _). lia.
    + by apply elem_of_nil in Hv.
Qed.

Lemma segment_app h n m a b :
  nth_prev h n a = Some b →
  segment h (n + m) a = segment h n a ++ segment h m b.
Proof.
  revert a. induction n as [|n IH]; intros a H; simpl in *.
  - by injection H as ->.
  - destruct (field_prev h a) as [p|]; [|done]. simpl in *.
    f_equal. by apply IH.
Qed.

(** The versions on a path the resolver returns are objects of the heap. *)
Lemma getVersionRelationship_bound h source target path :
  wf_heap h → source < List.length h → target < List.length h →
  getVersionRelationship h source target = Return path →
  ∀ e, e ∈ path → e.1 < List.length h.
Proof.
  intros Hwf Hs Ht Hp e He.
  destruct (inherits_dec h target source Hwf) as [[n Hn]|Hnup].
  - rewrite (getVersionRelationship_upgrade h n) in Hp by done.
    injection Hp as <-. apply list_elem_of_fmap in He as (w & -> & Hw).
    rewrite elem_of_reverse in Hw. apply segment_bound in Hw; [|done].
    simpl. lia.
  - destruct (inherits_dec h source target Hwf) as [[n Hn]|Hndown].
    + destruct n as [|n].
      { simpl in Hn. injection Hn as <-. destruct Hnup. apply inherits_refl. }
      rewrite (getVersionRelationship_downgrade h n) in Hp by done.
      remember (segment h (S n) source) as seg eqn:Hseg.
      injection Hp as <-. apply list_elem_of_fmap in He as (w & -> & Hw).
      subst seg. apply segment_bound in Hw; [|done]. simpl. lia.
    + by rewrite getVersionRelationship_unrelated in Hp.
Qed.

(** ** Further facts about translation and rendering *)

Section MoreTranslator.

Context {value : Type}.
Implicit Types (d delta : Delta value) (l : Ledger value)
  (st : store value) (state : gmap string value).

Lemma for_of_ext {A B : Type} (f g : A → B → result A) xs acc :
  (∀ x, x ∈ xs → ∀ a, f a x = g a x) →
  for_of f xs acc = for_of g xs acc.
Proof.
  revert acc. induction xs as [|x xs IH]; intros acc H; [done|].
  rewrite !for_of_cons, (H x) by (by left).
  destruct (g acc x); simpl; [|done..].
  apply IH. intros y Hy. apply H. by right.
Qed.

Lemma for_of_singleton {A B : Type} (body : A → B → result A) x acc :
  for_of body [x] acc = body acc x.
Proof. simpl. by destruct (body acc x). Qed.

Lemma step_app h k d (e : version_ref * direction) :
  e.1 < List.length h → step (h ++ k) d e = step h d e.
Proof.
  destruct e as [v dir]. simpl. intros Hv.
  unfold upgradeOrDowngradeDelta. by rewrite field_migration_app.
Qed.

Lemma translateDelta_app h k d target :
  wf_heap h → Delta_version d < List.length h → target < List.length h →
  translateDelta (h ++ k) d target = translateDelta h d target.
Proof.
  intros Hwf Hd Ht. rewrite !translateDelta_unfold.
  rewrite getVersionRelationship_app by done.
  destruct (getVersionRelationship h (Delta_version d) target)
    as [path| |] eqn:Hp; [|done..].
  rewrite !bind_Return. apply for_of_ext. intros e He a.
  apply step_app.
  by apply (getVersionRelationship_bound h (Delta_version d) target path).
Qed.

Lemma renderLedgerAsVersion_app h k l v :
  wf_heap h → (∀ d, d ∈ l → Delta_version d < List.length h) →
  v < List.length h →
  renderLedgerAsVersion (h ++ k) l v = renderLedgerAsVersion h l v.
Proof.
  intros Hwf Hl Hv. unfold renderLedgerAsVersion.
  apply for_of_ext. intros d Hd state. unfold reducer.
  rewrite translateDelta_app; [done..|by apply Hl|done].
Qed.

Lemma related_dec h a b : wf_heap h → related h a b ∨ ¬ related h a b.
Proof.
  intros Hwf. unfold related.
  destruct (inherits_dec h a b Hwf); [by left; left|].
  destruct (inherits_dec h b a Hwf); [by left; right|].
  right. by intros [?|?].
Qed.

Lemma translateDelta_unrelated h d target :
  wf_heap h → ¬ related h (Delta_version d) target →
  translateDelta h d target = Throw TypeError.
Proof.
  intros Hwf Hn. rewrite translateDelta_unfold.
  rewrite getVersionRelationship_unrelated; [done..| |].
  - intros ?. apply Hn. by right.
  - intros ?. apply Hn. by left.
Qed.

Lemma for_of_reducer_unrelated h l v state d :
  wf_heap h → d ∈ l → ¬ related h (Delta_version d) v →
  for_of (reducer h v) l state = Throw TypeError.
Proof.
  intros Hwf Hd Hn. revert state.
  induction l as [|d0 l IH]; intros state; [by apply elem_of_nil in Hd|].
  rewrite for_of_cons. unfold reducer at 2.
  destruct (related_dec h (Delta_version d0) v Hwf) as [Hr|Hr].
  - destruct (translateDelta_total h d0 v Hwf Hr) as [d' Hd'].
    rewrite Hd', !bind_Return.
    apply elem_of_cons in Hd as [->|Hd]; [done|]. by apply IH.
  - by rewrite translateDelta_unrelated.
Qed.

Lemma for_of_steps_value h path d v' prop' (x' : value) :
  for_of (step h) path d = Return (op_set v' prop' x') →
  ∃ v prop, d = op_set v prop x'.
Proof.
  revert d. induction path as [|[sv dir] path IH]; intros d H.
  - simpl in H. injection H as ->. eauto.
  - rewrite for_of_cons in H. simpl in H.
    destruct (upgradeOrDowngradeDelta h d dir sv) as [d1| |] eqn:Hd1;
      [|done..].
    rewrite bind_Return in H. apply IH in H as (v1 & p1 & ->).
    destruct d as [v0|v0 p0 x0]; [done|].
    apply step_value in Hd1 as ->. eauto.
Qed.

Lemma translateDelta_value h d target v' prop' (x' : value) :
  translateDelta h d target = Return (op_set v' prop' x') →
  ∃ v prop, d = op_set v prop x'.
Proof.
  rewrite translateDelta_unfold.
  destruct (getVersionRelationship h (Delta_version d) target)
    as [path| |]; [|done..].
  rewrite bind_Return. apply for_of_steps_value.
Qed.

Lemma for_of_reducer_values h l v state0 state f (x : value) :
  for_of (reducer h v) l state0 = Return state →
  state !! f = Some x →
  state0 !! f = Some x ∨ ∃ ver prop, op_set ver prop x ∈ l.
Proof.
  revert state0. induction l as [|d l IH]; intros state0 H Hf.
  - simpl in H. injection H as ->. by left.
  - rewrite for_of_cons in H. unfold reducer at 2 in H.
    destruct (translateDelta h d v) as [d'| |] eqn:Hd'; [|done..].
    rewrite !bind_Return in H.
    destruct (IH _ H Hf) as [H0|(ver & prop & Hin)].
    + destruct d' as [v'|v' p' x']; [by left|]. simpl in H0.
      destruct (decide (p' = f)) as [->|Hne].
      * rewrite lookup_insert_eq in H0. injection H0 as ->.
        apply translateDelta_value in Hd' as (v0 & p0 & ->).
        right. exists v0, p0. by left.
      * rewrite lookup_insert_ne in H0 by done. by left.
    + right. exists ver, prop. by right.
Qed.

Lemma nth_prev_one h v2 v1 :
  field_prev h v2 = Some v1 → nth_prev h 1 v2 = Some v1.
Proof. intros H. apply nth_prev_S_r. by exists v2. Qed.

Lemma translateDelta_one_up h d v1 v2 :
  wf_heap h → field_prev h v2 = Some v1 → Delta_version d = v1 →
  translateDelta h d v2 = upgradeOrDowngradeDelta h d upgrade v2.
Proof.
  intros Hwf Hp Hd. rewrite translateDelta_unfold.
  rewrite (getVersionRelationship_upgrade h 1)
    by (done || rewrite Hd; by apply nth_prev_one).
  rewrite bind_Return, (segment_one h v2 v1 Hp).
  exact (for_of_singleton (step h) (v2, upgrade) d).
Qed.

Lemma translateDelta_one_down h d v1 v2 :
  wf_heap h → field_prev h v2 = Some v1 → Delta_version d = v2 →
  translateDelta h d v1 = upgradeOrDowngradeDelta h d downgrade v2.
Proof.
  intros Hwf Hp Hd. rewrite translateDelta_unfold.
  rewrite (getVersionRelationship_downgrade h 0)
    by (done || rewrite Hd; by apply nth_prev_one).
  rewrite bind_Return, Hd, (segment_one h v2 v1 Hp).
  exact (for_of_singleton (step h) (v2, downgrade) d).
Qed.

(** What a reader sees after a write through any view of the same
    instance: the rendered state of the old ledger with the translated
    delta applied. *)
Lemma Handler_get_after_set h r (w v : version_ref) st l state
    (f g : string) (x : value) d' :
  st !! r = Some l →
  renderLedgerAsVersion h l v = Return state →
  translateDelta h (op_set w f x) v = Return d' →
  Handler_get h (mkHandler r v) (key_string g)
    (Handler_set (mkHandler r w) (key_string f) x st).2 =
  Return (got_value (applyDelta state d' !! g)).
Proof.
  intros Hl Hs Hd. unfold Handler_get, Handler_set. simpl.
  unfold store, Ledger, ledger_ref in *.
  rewrite list_lookup_alter_eq, Hl. simpl.
  rewrite renderLedgerAsVersion_snoc, Hs, bind_Return.
  unfold reducer. by rewrite Hd, !bind_Return.
Qed.

Lemma Handler_get_before h r (v : version_ref) st l state (g : string) :
  st !! r = Some l →
  renderLedgerAsVersion h l v = Return state →
  Handler_get h (mkHandler r v) (key_string g) st =
  Return (got_value (state !! g)).
Proof.
  intros Hl Hs. unfold Handler_get. simpl.
  unfold store, Ledger, ledger_ref in *. by rewrite Hl, Hs.
Qed.

End MoreTranslator.

(** ** Further properties of the resolver and the translator *)

Section Extras.

Context {value : Type}.
Implicit Types (d delta : Delta value) (l : Ledger value)
  (st : store value) (state : gmap string value).

(** X1. On a well-formed heap [versionInheritsFrom] always returns, and it
    returns [true] exactly when the ancestor is reached from the descendant
    by following [prev] links. *)
Theorem versionInheritsFrom_decides h (d a : version_ref) :
  wf_heap h →
  ∃ b : bool, versionInheritsFrom h d a = Return b ∧
              (b = true ↔ inherits h d a).
Proof.
  intros Hwf. destruct (inherits_dec h d a Hwf) as [Hi|Hn].
  - exists true. by rewrite versionInheritsFrom_true.
  - exists false. rewrite versionInheritsFrom_false by done.
    split; [done|]. split; [done|]. intros ?. by destruct Hn.
Qed.

(** X2. Between a version and a proper descendant, the path for the way
    down is the path for the way up read backwards with every entry tagged
    [downgrade]. *)
Theorem resolver_paths_mirror h (source target : version_ref) :
  wf_heap h → inherits h target source → source ≠ target →
  ∃ path, getVersionRelationship h source target = Return path ∧
          getVersionRelationship h target source
            = Return (reverse (flip_entry <$> path)).
Proof.
  intros Hwf [n Hn] Hne. destruct n as [|n].
  { simpl in Hn. by injection Hn as ->. }
  eexists. split; [by apply (getVersionRelationship_upgrade h (S n))|].
  rewrite (getVersionRelationship_downgrade h n) by done. f_equal.
  rewrite <- list_fmap_compose, <- fmap_reverse, reverse_involutive.
  reflexivity.
Qed.

(** X3. Translation composes along a lineage: going to [target] through an
    intermediate version on the way, in one direction, gives the same delta
    as going there directly. *)
Theorem translateDelta_composes h d (mid target : version_ref) :
  wf_heap h →
  (inherits h mid (Delta_version d) ∧ inherits h target mid) ∨
  (inherits h (Delta_version d) mid ∧ inherits h mid target) →
  translateDelta h d target =
  (translateDelta h d mid ≫= λ d1, translateDelta h d1 target).
Proof.
  intros Hwf [[[n Hn] [m Hm]]|[[n Hn] [m Hm]]].
  - destruct (translateDelta_upgrade h d mid Hwf) as (d1 & Hd1 & Hv1);
      [by exists n|].
    rewrite Hd1, bind_Return.
    rewrite translateDelta_unfold in Hd1.
    rewrite (getVersionRelationship_upgrade h n) in Hd1 by done.
    rewrite bind_Return in Hd1.
    rewrite !translateDelta_unfold, Hv1.
    rewrite (getVersionRelationship_upgrade h m mid target) by done.
    rewrite (getVersionRelationship_upgrade h (m + n) (Delta_version d) target)
      by (done || by apply (nth_prev_add h m n _ mid)).
    rewrite !bind_Return, (segment_app h m n target mid Hm).
    by rewrite reverse_app, fmap_app, for_of_app, Hd1, bind_Return.
  - destruct n as [|n].
    { simpl in Hn. injection Hn as <-.
      by rewrite translateDelta_same, bind_Return. }
    destruct (translateDelta_downgrade h d mid n Hwf Hn)
      as (d0 & c & Hc & Hcm & Hd0 & Heq).
    destruct (wf_heap_prev h c mid Hwf Hcm) as (_ & _ & Hmig).
    destruct (step_total h d0 downgrade c Hmig) as [d1 Hd1].
    pose proof (step_version _ _ _ _ _ Hd1) as Hv1.
    rewrite Heq, Hd1, bind_Return, !translateDelta_unfold, Hv1.
    rewrite (getVersionRelationship_downgrade h (n + m) (Delta_version d)
               target)
      by (done || by apply (nth_prev_add h (S n) m _ mid)).
    rewrite (getVersionRelationship_downgrade h m c target)
      by (done || by apply (nth_prev_add h 1 m _ mid); [apply nth_prev_one|]).
    rewrite !bind_Return.
    change (S (n + m)) with (S n + m).
    rewrite (segment_app h (S n) m _ mid Hn), (segment_snoc h n _ c Hc).
    change (S m) with (1 + m).
    rewrite (segment_app h 1 m c mid) by (by apply nth_prev_one).
    rewrite (segment_one h c mid Hcm).
    rewrite !fmap_app, !for_of_app, Hd0, !bind_Return.
    change (for_of (step h) ((., downgrade) <$> [c]) d0)
      with (for_of (step h) [(c, downgrade)] d0).
    change (for_of (step h) ((., downgrade) <$> [c]) d1)
      with (for_of (step h) [(c, downgrade)] d1).
    rewrite !for_of_singleton. simpl.
    by rewrite Hd1, (step_downgrade_idem h d0 c d1 Hd1), !bind_Return.
Qed.

(** X4. A read never invents a value: every value in a rendered state was
    the value of some [set] delta of the ledger. *)
Theorem rendered_values_come_from_ledger h l (v : version_ref) state
    (f : string) (x : value) :
  renderLedgerAsVersion h l v = Return state →
  state !! f = Some x →
  ∃ ver prop, op_set ver prop x ∈ l.
Proof.
  intros H Hf.
  destruct (for_of_reducer_values h l v ∅ state f x H Hf) as [H0|?]; [|done].
  by rewrite lookup_empty in H0.
Qed.

(** X5. A read of a string key returns when every delta of the ledger was
    recorded on the lineage of the view's version, and throws a TypeError as
    soon as one delta was not, wherever it stands in the ledger. *)
Theorem read_returns_iff_ledger_on_lineage h (this : Handler) st l
    (g : string) :
  wf_heap h → st !! ledger this = Some l →
  ((∀ d, d ∈ l → related h (Delta_version d) (version this)) →
   ∃ o, Handler_get h this (key_string g) st = Return (got_value o)) ∧
  ((∃ d, d ∈ l ∧ ¬ related h (Delta_version d) (version this)) →
   Handler_get h this (key_string g) st = Throw TypeError).
Proof.
  intros Hwf Hl. unfold Handler_get.
  unfold store, Ledger, ledger_ref in *. rewrite Hl. split.
  - intros Hrel.
    destruct (renderLedgerAsVersion_total h l (version this) Hwf Hrel)
      as [state ->].
    rewrite bind_Return. eauto.
  - intros (d & Hd & Hn). unfold renderLedgerAsVersion.
    by rewrite (for_of_reducer_unrelated h l (version this) ∅ d).
Qed.

(** X6. A write through a view changes what that view reads under the
    written key only: every other key, string or symbol, reads as before. *)
Theorem write_leaves_other_keys h (this : Handler) st (f : string)
    (x : value) (prop : PropertyKey) :
  wf_heap h → prop ≠ key_string f →
  Handler_get h this prop (Handler_set this (key_string f) x st).2 =
  Handler_get h this prop st.
Proof.
  intros Hwf Hne.
  pose proof (translateDelta_same h (op_set (version this) f x) Hwf) as Hs.
  cbn [Delta_version] in Hs.
  assert (∀ (pick : gmap string value → option value),
    (∀ state, pick (<[f:=x]> state) = pick state) →
    match (λ l, l ++ [op_set (version this) f x]) <$> st !! ledger this with
    | Some l => renderLedgerAsVersion h l (version this)
                ≫= λ state, Return (got_value (pick state))
    | None => Throw TypeError
    end =
    match st !! ledger this with
    | Some l => renderLedgerAsVersion h l (version this)
                ≫= λ state, Return (got_value (pick state))
    | None => Throw TypeError
    end) as Hpick.
  { intros pick Hp. destruct (st !! ledger this) as [l|]; [|done].
    cbn [fmap option_fmap option_map].
    rewrite renderLedgerAsVersion_snoc.
    destruct (renderLedgerAsVersion h l (version this)) as [state| |];
      [|done..].
    rewrite !bind_Return. unfold reducer. rewrite Hs, !bind_Return.
    cbn [applyDelta]. by rewrite Hp. }
  destruct prop as [g|[|id]]; [| done |];
    unfold Handler_get, Handler_set; cbn [snd];
    unfold store, Ledger, ledger_ref in *;
    rewrite list_lookup_alter_eq.
  - apply (Hpick (λ state, state !! g)). intros state.
    apply lookup_insert_ne. intros ->. by apply Hne.
  - by apply (Hpick (λ _, None)).
Qed.

(** X7. Instances are isolated: a [set] through a view of one instance,
    whatever the key, does not change what a view of an instance with
    another ledger reads. *)
Theorem write_isolated_between_instances h (this other : Handler) st
    (key prop : PropertyKey) (x : value) :
  ledger other ≠ ledger this →
  Handler_get h other prop (Handler_set this key x st).2 =
  Handler_get h other prop st.
Proof.
  intros Hne. destruct key as [f|sym]; [|done].
  unfold Handler_get, Handler_set. simpl.
  unfold store, Ledger, ledger_ref in *.
  by rewrite list_lookup_alter_ne.
Qed.

End Extras.

(** ** Further facts about the builders and the views *)

Lemma field_prev_new h p m :
  field_prev (h ++ [mkSchema p m]) (List.length h) = p.
Proof.
  unfold field_prev, heap in *. by rewrite (list_lookup_middle h [] _ _ eq_refl).
Qed.

Lemma field_migration_new h p m :
  field_migration (h ++ [mkSchema p m]) (List.length h) = m.
Proof.
  unfold field_migration, heap in *.
  by rewrite (list_lookup_middle h [] _ _ eq_refl).
Qed.

Section MoreViews.

Context {value : Type}.
Implicit Types (d delta : Delta value) (l : Ledger value)
  (st : store value) (state : gmap string value)
  (props : list (string * value)).

Lemma Object_assign_strings (view : Handler) props st :
  Object_assign view (string_props props) st =
  (Return (), alter (λ l, l ++ set_deltas (version view) props)
                    (ledger view) st).
Proof.
  revert st. induction props as [|[k x] props IH]; intros st.
  - simpl. f_equal. symmetry. apply list_alter_id.
    intros l. by rewrite app_nil_r.
  - change (string_props ((k, x) :: props))
      with ((key_string k, x) :: string_props props).
    cbn [Object_assign Handler_set]. rewrite IH. f_equal.
    unfold store, Ledger, ledger_ref in *.
    rewrite list_alter_alter_eq. apply list_alter_ext; [|done].
    intros l _. simpl. by rewrite <- app_assoc.
Qed.

Lemma newInstance_strings (this : version_ref) props st :
  newInstance this (Some (string_props props)) st =
  (Return (viewLedger (List.length st) this), st ++ [set_deltas this props]).
Proof.
  unfold newInstance. rewrite Object_assign_strings. f_equal.
  cbn [ledger version viewLedger]. unfold store, Ledger, ledger_ref in *.
  rewrite alter_app_r_alt by done. by rewrite Nat.sub_diag.
Qed.

Lemma Object_assign_symbol (view : Handler)
    (props : list (PropertyKey * value)) st sym (x : value) :
  (key_symbol sym, x) ∈ props →
  (Object_assign view props st).1
    = Throw (Error "Cannot set non-string property key") ∧
  List.length (Object_assign view props st).2 = List.length st.
Proof.
  revert st. induction props as [|[k y] props IH]; intros st Hin.
  - by apply elem_of_nil in Hin.
  - destruct k as [f|sym'].
    + cbn [Object_assign Handler_set].
      apply elem_of_cons in Hin as [[=]|Hin].
      destruct (IH (alter (λ l, l ++ [op_set (version view) f y])
                          (ledger view) st) Hin) as [H1 H2].
      split; [done|]. unfold store, Ledger, ledger_ref in *.
      rewrite H2. apply length_alter.
    + done.
Qed.



Lemma Handler_get_no_op_write h r (w v : version_ref) st (f : string)
    (x : value) prop vn :
  translateDelta h (op_set w f x) v = Return (op_no_op vn) →
  Handler_get h (mkHandler r v) prop
    (Handler_set (mkHandler r w) (key_string f) x st).2 =
  Handler_get h (mkHandler r v) prop st.
Proof.
  intros Hd.
  assert (∀ (pick : gmap string value → option value),
    match (λ l, l ++ [op_set w f x]) <$> st !! r with
    | Some l => renderLedgerAsVersion h l v
                ≫= λ state, Return (got_value (pick state))
    | None => Throw TypeError
    end =
    match st !! r with
    | Some l => renderLedgerAsVersion h l v
                ≫= λ state, Return (got_value (pick state))
    | None => Throw TypeError
    end) as Hpick.
  { intros pick. destruct (st !! r) as [l|]; [|done].
    cbn [fmap option_fmap option_map].
    rewrite renderLedgerAsVersion_snoc.
    destruct (renderLedgerAsVersion h l v) as [state| |]; [|done..].
    rewrite !bind_Return. unfold reducer. by rewrite Hd, !bind_Return. }
  destruct prop as [g|[|id]]; [| done |];
    unfold Handler_get, Handler_set; cbn [snd ledger version];
    unfold store, Ledger, ledger_ref in *;
    rewrite list_lookup_alter_eq.
  - apply (Hpick (λ state, state !! g)).
  - apply (Hpick (λ _, None)).
Qed.

End MoreViews.

(** ** Further properties of the builders and the views *)

Section MoreExtras.

Context {value : Type}.
Implicit Types (d delta : Delta value) (l : Ledger value)
  (st : store value) (state : gmap string value)
  (props : list (string * value)).

(** X8. [newInstance] with an initial state of string keys returns a view
    bound to the receiver over a new ledger, appended to the store after
    the untouched existing ledgers, that holds one [set] delta per initial
    property, in order, tagged with the receiver; with a falsy initial
    state the new ledger is empty. *)
Theorem newInstance_records_initial_state (this : version_ref) props st :
  newInstance this (Some (string_props props)) st =
    (Return (viewLedger (List.length st) this),
     st ++ [set_deltas this props]) ∧
  newInstance this None st =
    (Return (viewLedger (List.length st) this), st ++ [[]]).
Proof. split; [apply newInstance_strings|done]. Qed.


(** X10. [newInstance] with an initial state that has a symbol key throws
    the error of the [set] trap, after the new ledger was added to the
    store. *)
Theorem newInstance_symbol_key_throws (this : version_ref)
    (initialState : list (PropertyKey * value)) st sym (x : value) :
  (key_symbol sym, x) ∈ initialState →
  (newInstance this (Some initialState) st).1
    = Throw (Error "Cannot set non-string property key") ∧
  List.length (newInstance this (Some initialState) st).2
    = S (List.length st).
Proof.
  intros Hin. unfold newInstance.
  destruct (Object_assign_symbol (viewLedger (List.length st) this)
              initialState (st ++ [[]]) sym x Hin) as [H1 H2].
  destruct (Object_assign _ initialState (st ++ [[]])) as [r st'].
  simpl in H1, H2. subst r. simpl. split; [done|].
  rewrite H2, length_app. simpl. lia.
Qed.

(** X11. A builder method leaves every existing version as it is and
    returns a new one, one link above the receiver: the path from the
    receiver up is the new version tagged [upgrade], the path back down is
    the new version tagged [downgrade]. *)
Theorem new_version_links h (this : version_ref) (m : SchemaMigration) :
  wf_heap h → this < List.length h →
  let new := new_Schema (Some this) (Some m) h in
  new.1 = List.length h ∧
  (∀ v, v < List.length h → new.2 !! v = h !! v) ∧
  field_prev new.2 new.1 = Some this ∧
  field_migration new.2 new.1 = Some m ∧
  getVersionRelationship new.2 this new.1 = Return [(new.1, upgrade)] ∧
  getVersionRelationship new.2 new.1 this = Return [(new.1, downgrade)].
Proof.
  intros Hwf Hlt. cbn zeta. unfold new_Schema. cbn [fst snd].
  pose proof (wf_heap_new_Schema h this m Hwf Hlt) as Hwf'.
  unfold new_Schema in Hwf'. cbn [snd] in Hwf'.
  pose proof (field_prev_new h (Some this) (Some m)) as Hp.
  split; [done|]. split.
  { intros v Hv. unfold heap in *. by rewrite lookup_app_l. }
  split; [done|]. split; [apply field_migration_new|].
  split.
  - rewrite (getVersionRelationship_upgrade _ 1)
      by (done || by apply nth_prev_one).
    by rewrite (segment_one _ _ _ Hp).
  - rewrite (getVersionRelationship_downgrade _ 0)
      by (done || by apply nth_prev_one).
    by rewrite (segment_one _ _ _ Hp).
Qed.

(** X12. Building a schema version, whatever its arguments, does not
    change what an existing view reads from a ledger recorded under
    existing versions. *)
Theorem reads_stable_under_new_versions h (this : Handler) st l
    (prop : PropertyKey) p m :
  wf_heap h → st !! ledger this = Some l →
  (∀ d, d ∈ l → Delta_version d < List.length h) →
  version this < List.length h →
  Handler_get (new_Schema p m h).2 this prop st = Handler_get h this prop st.
Proof.
  intros Hwf Hl Hd Hv. unfold new_Schema. cbn [snd]. unfold Handler_get.
  unfold store, Ledger, ledger_ref in *. rewrite Hl.
  by rewrite renderLedgerAsVersion_app.
Qed.

(** X13. Across a [renameField(oldName, newName)] version the two names
    are one field: a value written under the old name through a view of the
    predecessor is read under the new name through a view of the renaming
    version, and a value written under the new name there is read under the
    old name through the predecessor. *)
Theorem rename_visible_across_versions h (r : ledger_ref)
    (v1 v2 : version_ref) (oldName newName : string) st l (x : value) :
  wf_heap h → field_prev h v2 = Some v1 →
  field_migration h v2 = Some (op_renameField oldName newName) →
  st !! r = Some l →
  ((∀ d, d ∈ l → related h (Delta_version d) v2) →
   Handler_get h (mkHandler r v2) (key_string newName)
     (Handler_set (mkHandler r v1) (key_string oldName) x st).2
   = Return (got_value (Some x))) ∧
  ((∀ d, d ∈ l → related h (Delta_version d) v1) →
   Handler_get h (mkHandler r v1) (key_string oldName)
     (Handler_set (mkHandler r v2) (key_string newName) x st).2
   = Return (got_value (Some x))).
Proof.
  intros Hwf Hp Hm Hl.
  destruct (renameField_step_table h v2 oldName newName v1 oldName x Hm)
    as [Hup _].
  destruct (renameField_step_table h v2 oldName newName v2 newName x Hm)
    as [_ Hdown].
  rewrite decide_True in Hup by done. rewrite decide_True in Hdown by done.
  split; intros Hrel.
  - destruct (renderLedgerAsVersion_total h l v2 Hwf Hrel) as [state Hs].
    rewrite (Handler_get_after_set h r v1 v2 st l state _ _ x
               (op_set v2 newName x)); try done.
    + simpl. by rewrite lookup_insert_eq.
    + by rewrite (translateDelta_one_up h _ v1 v2).
  - destruct (renderLedgerAsVersion_total h l v1 Hwf Hrel) as [state Hs].
    rewrite (Handler_get_after_set h r v2 v1 st l state _ _ x
               (op_set v2 oldName x)); try done.
    + simpl. by rewrite lookup_insert_eq.
    + by rewrite (translateDelta_one_down h _ v1 v2).
Qed.

(** X14. A field added by a version does not exist before it: a write to
    the added field through a view of the [addField] version changes nothing
    that a view of the predecessor reads, under any key. *)
Theorem added_field_invisible_before h (r : ledger_ref) (v1 v2 : version_ref)
    (fieldName : string) st (x : value) (prop : PropertyKey) :
  wf_heap h → field_prev h v2 = Some v1 →
  field_migration h v2 = Some (op_addField fieldName) →
  Handler_get h (mkHandler r v1) prop
    (Handler_set (mkHandler r v2) (key_string fieldName) x st).2 =
  Handler_get h (mkHandler r v1) prop st.
Proof.
  intros Hwf Hp Hm. apply (Handler_get_no_op_write _ _ _ _ _ _ _ _ v2).
  rewrite (translateDelta_one_down h _ v1 v2) by done.
  by apply (addField_step_table h v2 fieldName v2 fieldName x Hm).
Qed.

(** X15. A field removed by a version does not exist after it: a write to
    the removed field through a view of the predecessor changes nothing
    that a view of the [removeField] version reads, under any key. *)
Theorem removed_field_invisible_after h (r : ledger_ref) (v1 v2 : version_ref)
    (fieldName : string) st (x : value) (prop : PropertyKey) :
  wf_heap h → field_prev h v2 = Some v1 →
  field_migration h v2 = Some (op_removeField fieldName) →
  Handler_get h (mkHandler r v2) prop
    (Handler_set (mkHandler r v1) (key_string fieldName) x st).2 =
  Handler_get h (mkHandler r v2) prop st.
Proof.
  intros Hwf Hp Hm. apply (Handler_get_no_op_write _ _ _ _ _ _ _ _ v2).
  rewrite (translateDelta_one_up h _ v1 v2) by done.
  rewrite (removeField_step_table h v2 fieldName v1 fieldName x upgrade Hm).
  by rewrite decide_True.
Qed.

(** X16. Two versions built from the same receiver are on different
    branches: the resolver throws between them, in both orders. *)
Theorem sibling_versions_unrelated h (this : version_ref)
    (m1 m2 : SchemaMigration) :
  wf_heap h → this < List.length h →
  let first := new_Schema (Some this) (Some m1) h in
  let second := new_Schema (Some this) (Some m2) first.2 in
  getVersionRelationship second.2 first.1 second.1 = Throw TypeError ∧
  getVersionRelationship second.2 second.1 first.1 = Throw TypeError.
Proof.
  intros Hwf Hlt. cbn zeta.
  pose proof (wf_heap_new_Schema h this m1 Hwf Hlt) as Hwf1.
  assert (this < List.length (new_Schema (Some this) (Some m1) h).2) as Hlt1.
  { unfold new_Schema. cbn [snd]. rewrite length_app. lia. }
  pose proof (wf_heap_new_Schema _ this m2 Hwf1 Hlt1) as Hwf2.
  pose proof (field_prev_new (h ++ [mkSchema (Some this) (Some m1)])
                (Some this) (Some m2)) as Hp2.
  unfold new_Schema in *. cbn [fst snd] in *.
  set (h2 := (h ++ [mkSchema (Some this) (Some m1)])
               ++ [mkSchema (Some this) (Some m2)]) in *.
  assert (List.length (h ++ [mkSchema (Some this) (Some m1)])
          = S (List.length h)) as Hlen.
  { rewrite length_app. simpl. lia. }
  assert (¬ inherits h2 (List.length h)
            (List.length (h ++ [mkSchema (Some this) (Some m1)]))) as Hn1.
  { intros [n Hn]. apply nth_prev_le in Hn; [lia|done]. }
  assert (¬ inherits h2 (List.length (h ++ [mkSchema (Some this) (Some m1)]))
            (List.length h)) as Hn2.
  { intros [n Hn]. destruct n as [|n].
    - simpl in Hn. injection Hn as Hn. lia.
    - simpl in Hn. rewrite Hp2 in Hn. simpl in Hn.
      apply nth_prev_le in Hn; [lia|done]. }
  split; by apply getVersionRelationship_unrelated.
Qed.

End MoreExtras.

(** ** Fields and the migrations that name them *)

Section Fields.

Context {value : Type}.
Implicit Types (d delta : Delta value) (l : Ledger value)
  (st : store value) (state : gmap string value).

Lemma step_unnamed h (v0 v : version_ref) (g : string) (x : value) dir m :
  field_migration h v = Some m → g ∉ migration_names m →
  upgradeOrDowngradeDelta h (op_set v0 g x) dir v = Return (op_set v g x).
Proof.
  intros Hm Hg. unfold upgradeOrDowngradeDelta, case_removeField.
  rewrite Hm. destruct m as [f|o n|f]; simpl in Hg;
    repeat (apply not_elem_of_cons in Hg as [? Hg]);
    rewrite ?decide_False; try done; by intros [_ ?].
Qed.

Lemma for_of_steps_unnamed h (path : VersionHistory) (v0 : version_ref)
    (g : string) (x : value) :
  (∀ e, e ∈ path →
        ∃ m, field_migration h e.1 = Some m ∧ g ∉ migration_names m) →
  for_of (step h) path (op_set v0 g x) =
  Return (op_set (default v0 (last path.*1)) g x).
Proof.
  revert v0. induction path as [|[v dir] path IH]; intros v0 Hall; [done|].
  destruct (Hall (v, dir)) as (m & Hm & Hg); [by left|].
  rewrite for_of_cons. cbn [step]. simpl in Hm.
  rewrite (step_unnamed h v0 v g x dir m Hm Hg), bind_Return.
  rewrite IH by (intros e He; apply Hall; by right).
  by rewrite fmap_cons, last_default_cons.
Qed.

Lemma Handler_get_set_write h r (w v : version_ref) st (f f' : string)
    (x x' : value) prop v' :
  translateDelta h (op_set w f x) v = Return (op_set v' f' x') →
  prop ≠ key_string f' →
  Handler_get h (mkHandler r v) prop
    (Handler_set (mkHandler r w) (key_string f) x st).2 =
  Handler_get h (mkHandler r v) prop st.
Proof.
  intros Hd Hne.
  assert (∀ (pick : gmap string value → option value),
    (∀ state, pick (<[f':=x']> state) = pick state) →
    match (λ l, l ++ [op_set w f x]) <$> st !! r with
    | Some l => renderLedgerAsVersion h l v
                ≫= λ state, Return (got_value (pick state))
    | None => Throw TypeError
    end =
    match st !! r with
    | Some l => renderLedgerAsVersion h l v
                ≫= λ state, Return (got_value (pick state))
    | None => Throw TypeError
    end) as Hpick.
  { intros pick Hp. destruct (st !! r) as [l|]; [|done].
    cbn [fmap option_fmap option_map].
    rewrite renderLedgerAsVersion_snoc.
    destruct (renderLedgerAsVersion h l v) as [state| |]; [|done..].
    rewrite !bind_Return. unfold reducer. rewrite Hd, !bind_Return.
    cbn [applyDelta]. by rewrite Hp. }
  destruct prop as [g|[|id]]; [| done |];
    unfold Handler_get, Handler_set; cbn [snd ledger version];
    unfold store, Ledger, ledger_ref in *;
    rewrite list_lookup_alter_eq.
  - apply (Hpick (λ state, state !! g)). intros state.
    apply lookup_insert_ne. intros ->. by apply Hne.
  - by apply (Hpick (λ _, None)).
Qed.

(** X17. A field that no migration on the path names keeps its name and
    its value: the translated delta is a [set] of the same field and
    value. *)
Theorem unnamed_field_keeps_its_name h (w v : version_ref) path
    (g : string) (x : value) :
  getVersionRelationship h w v = Return path →
  (∀ e, e ∈ path →
        ∃ m, field_migration h e.1 = Some m ∧ g ∉ migration_names m) →
  ∃ ver, translateDelta h (op_set w g x) v = Return (op_set ver g x).
Proof.
  intros Hp Hall. rewrite translateDelta_unfold. cbn [Delta_version].
  rewrite Hp, bind_Return. eexists. by apply for_of_steps_unnamed.
Qed.

(** X18. For a view whose version is on the lineage of the writer's, one
    write changes what the view reads under at most one key. *)
Theorem write_changes_at_most_one_key h (r : ledger_ref)
    (w v : version_ref) st (f : string) (x : value) :
  wf_heap h → related h w v →
  ∃ f' : string, ∀ prop, prop ≠ key_string f' →
    Handler_get h (mkHandler r v) prop
      (Handler_set (mkHandler r w) (key_string f) x st).2 =
    Handler_get h (mkHandler r v) prop st.
Proof.
  intros Hwf Hrel.
  destruct (translateDelta_total h (op_set w f x) v Hwf Hrel) as [d' Hd'].
  destruct d' as [vn|v' f' x'].
  - exists f. intros prop _. by eapply Handler_get_no_op_write.
  - exists f'. intros prop Hne. by eapply Handler_get_set_write.
Qed.

End Fields.

(** ** The further properties on the worked scenarios *)

Open Scope string_scope.

Ltac not_in_names :=
  repeat (apply not_elem_of_cons; split; [by intros [=]|]);
  apply not_elem_of_nil.

Lemma versionInheritsFrom_decides_witness :
  ∃ b : bool, versionInheritsFrom Scenario.schemas 5 2 = Return b ∧
              (b = true ↔ inherits Scenario.schemas 5 2).
Proof. apply (versionInheritsFrom_decides Scenario.schemas 5 2). reflexivity. Defined.

Lemma resolver_paths_mirror_witness :
  ∃ path, getVersionRelationship Scenario.schemas 2 5 = Return path ∧
          getVersionRelationship Scenario.schemas 5 2
            = Return (reverse (flip_entry <$> path)).
Proof.
  apply (resolver_paths_mirror Scenario.schemas 2 5).
  - reflexivity.
  - exists 3. reflexivity.
  - lia.
Defined.

Lemma translateDelta_composes_witness :
  translateDelta Scenario.schemas (op_set 5 "fieldY" "D") 2 =
  (translateDelta Scenario.schemas (op_set 5 "fieldY" "D") 4
   ≫= λ d1, translateDelta Scenario.schemas d1 2).
Proof.
  apply (translateDelta_composes Scenario.schemas (op_set 5 "fieldY" "D") 4 2).
  - reflexivity.
  - right. split; [exists 1|exists 2]; reflexivity.
Defined.

Lemma rendered_values_come_from_ledger_witness :
  ∃ ver prop,
    op_set ver prop "A" ∈ [op_set 2 "fieldX" "A"; op_set 2 "fieldY" "B"].
Proof.
  apply (rendered_values_come_from_ledger Scenario.schemas
           [op_set 2 "fieldX" "A"; op_set 2 "fieldY" "B"] 5
           {["fieldY" := "A"]} "fieldY" "A").
  - vm_compute. reflexivity.
  - vm_compute. reflexivity.
Defined.

Lemma read_returns_iff_ledger_on_lineage_witness :
  (∃ o, Handler_get Scenario.schemas Scenario.view2 (key_string "fieldY")
          Scenario.s2 = Return (got_value o)) ∧
  Handler_get Scenario.branches (viewLedger 0 2) (key_string "b")
    [[op_set 1 "a" "1"; op_set 2 "b" "2"]] = Throw TypeError.
Proof.
  split.
  - apply (read_returns_iff_ledger_on_lineage Scenario.schemas Scenario.view2
             Scenario.s2 [op_set 2 "fieldX" "A"; op_set 2 "fieldY" "B"]
             "fieldY"); [reflexivity..|].
    intros d Hd. right. exists 3.
    apply elem_of_cons in Hd as [->|Hd]; [reflexivity|].
    apply elem_of_cons in Hd as [->|Hd]; [reflexivity|].
    by apply elem_of_nil in Hd.
  - apply (read_returns_iff_ledger_on_lineage Scenario.branches
             (viewLedger 0 2) [[op_set 1 "a" "1"; op_set 2 "b" "2"]]
             [op_set 1 "a" "1"; op_set 2 "b" "2"] "b"); [reflexivity..|].
    exists (op_set 1 "a" "1"). split; [by left|].
    intros [H|H]; revert H; apply versionInheritsFrom_false_inv; reflexivity.
Defined.

Lemma write_leaves_other_keys_witness :
  Handler_get Scenario.schemas Scenario.view1 (key_string "fieldY")
    (Handler_set Scenario.view1 (key_string "fieldX") "Z" Scenario.s2).2 =
  Handler_get Scenario.schemas Scenario.view1 (key_string "fieldY")
    Scenario.s2.
Proof.
  apply (write_leaves_other_keys Scenario.schemas Scenario.view1 Scenario.s2
           "fieldX" "Z" (key_string "fieldY")).
  - reflexivity.
  - by intros [=].
Defined.

Lemma write_isolated_between_instances_witness :
  Handler_get Scenario.schemas (viewLedger 1 5) (key_string "fieldY")
    (Handler_set (viewLedger 0 2) (key_string "fieldX") "Z"
       [[]; [op_set 2 "fieldX" "A"]]).2 =
  Handler_get Scenario.schemas (viewLedger 1 5) (key_string "fieldY")
    [[]; [op_set 2 "fieldX" "A"]].
Proof.
  apply (write_isolated_between_instances Scenario.schemas (viewLedger 0 2)
           (viewLedger 1 5)).
  vm_compute. lia.
Defined.


Lemma newInstance_symbol_key_throws_witness :
  (newInstance 2 (Some [(key_string "a", "1");
                        (key_symbol (other_symbol 0), "2")]) []).1
    = Throw (Error "Cannot set non-string property key") ∧
  List.length
    (newInstance 2 (Some [(key_string "a", "1");
                          (key_symbol (other_symbol 0), "2")]) []).2 = 1.
Proof.
  apply (newInstance_symbol_key_throws 2
           [(key_string "a", "1"); (key_symbol (other_symbol 0), "2")] []
           (other_symbol 0) "2").
  right. left.
Defined.

Lemma new_version_links_witness :
  let new := new_Schema (Some 5) (Some (op_addField "z")) Scenario.schemas in
  new.1 = 6 ∧
  (∀ v, v < 6 → new.2 !! v = Scenario.schemas !! v) ∧
  field_prev new.2 new.1 = Some 5 ∧
  field_migration new.2 new.1 = Some (op_addField "z") ∧
  getVersionRelationship new.2 5 new.1 = Return [(new.1, upgrade)] ∧
  getVersionRelationship new.2 new.1 5 = Return [(new.1, downgrade)].
Proof.
  apply (new_version_links Scenario.schemas 5 (op_addField "z")).
  - reflexivity.
  - vm_compute. lia.
Defined.

Lemma reads_stable_under_new_versions_witness :
  Handler_get (new_Schema (Some 5) (Some (op_addField "z")) Scenario.schemas).2
    Scenario.view2 (key_string "fieldY") Scenario.s2 =
  Handler_get Scenario.schemas Scenario.view2 (key_string "fieldY")
    Scenario.s2.
Proof.
  apply (reads_stable_under_new_versions Scenario.schemas Scenario.view2
           Scenario.s2 [op_set 2 "fieldX" "A"; op_set 2 "fieldY" "B"]).
  - reflexivity.
  - reflexivity.
  - intros d Hd.
    apply elem_of_cons in Hd as [->|Hd]; [vm_compute; lia|].
    apply elem_of_cons in Hd as [->|Hd]; [vm_compute; lia|].
    by apply elem_of_nil in Hd.
  - vm_compute. lia.
Defined.

Lemma rename_visible_across_versions_witness :
  Handler_get Scenario.schemas (mkHandler 0 4) (key_string "fieldY")
    (Handler_set (mkHandler 0 3) (key_string "fieldX") "Z" Scenario.s2).2
    = Return (got_value (Some "Z")) ∧
  Handler_get Scenario.schemas (mkHandler 0 3) (key_string "fieldX")
    (Handler_set (mkHandler 0 4) (key_string "fieldY") "Z" Scenario.s2).2
    = Return (got_value (Some "Z")).
Proof.
  destruct (rename_visible_across_versions Scenario.schemas 0 3 4
              "fieldX" "fieldY" Scenario.s2
              [op_set 2 "fieldX" "A"; op_set 2 "fieldY" "B"] "Z")
    as [Hup Hdown]; [reflexivity..|].
  split.
  - apply Hup. intros d Hd. right. exists 2.
    apply elem_of_cons in Hd as [->|Hd]; [reflexivity|].
    apply elem_of_cons in Hd as [->|Hd]; [reflexivity|].
    by apply elem_of_nil in Hd.
  - apply Hdown. intros d Hd. right. exists 1.
    apply elem_of_cons in Hd as [->|Hd]; [reflexivity|].
    apply elem_of_cons in Hd as [->|Hd]; [reflexivity|].
    by apply elem_of_nil in Hd.
Defined.

Lemma added_field_invisible_before_witness :
  Handler_get Scenario.schemas (mkHandler 0 4) (key_string "fieldX")
    (Handler_set (mkHandler 0 5) (key_string "fieldX") "C" Scenario.s2).2 =
  Handler_get Scenario.schemas (mkHandler 0 4) (key_string "fieldX")
    Scenario.s2.
Proof.
  apply (added_field_invisible_before Scenario.schemas 0 4 5 "fieldX");
    reflexivity.
Defined.

Lemma removed_field_invisible_after_witness :
  Handler_get Scenario.schemas (mkHandler 0 3) (key_string "fieldY")
    (Handler_set (mkHandler 0 2) (key_string "fieldY") "C" Scenario.s2).2 =
  Handler_get Scenario.schemas (mkHandler 0 3) (key_string "fieldY")
    Scenario.s2.
Proof.
  apply (removed_field_invisible_after Scenario.schemas 0 2 3 "fieldY");
    reflexivity.
Defined.

Lemma sibling_versions_unrelated_witness :
  let first := new_Schema (Some 0) (Some (op_addField "a")) initial_heap in
  let second := new_Schema (Some 0) (Some (op_addField "b")) first.2 in
  getVersionRelationship second.2 first.1 second.1 = Throw TypeError ∧
  getVersionRelationship second.2 second.1 first.1 = Throw TypeError.
Proof.
  apply (sibling_versions_unrelated initial_heap 0
           (op_addField "a") (op_addField "b")).
  - reflexivity.
  - vm_compute. lia.
Defined.

Lemma unnamed_field_keeps_its_name_witness :
  ∃ ver, translateDelta Scenario.schemas (op_set 2 "other" "v") 5
         = Return (op_set ver "other" "v").
Proof.
  apply (unnamed_field_keeps_its_name Scenario.schemas 2 5
           [(3, upgrade); (4, upgrade); (5, upgrade)] "other" "v").
  - reflexivity.
  - intros e He.
    apply elem_of_cons in He as [->|He];
      [eexists; split; [reflexivity|not_in_names]|].
    apply elem_of_cons in He as [->|He];
      [eexists; split; [reflexivity|not_in_names]|].
    apply elem_of_cons in He as [->|He];
      [eexists; split; [reflexivity|not_in_names]|].
    by apply elem_of_nil in He.
Defined.

Lemma write_changes_at_most_one_key_witness :
  ∃ f' : string, ∀ prop, prop ≠ key_string f' →
    Handler_get Scenario.schemas (mkHandler 0 5) prop
      (Handler_set (mkHandler 0 2) (key_string "fieldX") "Z" Scenario.s2).2 =
    Handler_get Scenario.schemas (mkHandler 0 5) prop Scenario.s2.
Proof.
  apply (write_changes_at_most_one_key Scenario.schemas 0 2 5 Scenario.s2
           "fieldX" "Z").
  - reflexivity.
  - right. exists 3. reflexivity.
Defined.
